(** * PictureList_Import: localisation of Creative Cloud documents

    A shallow embedding of the ExtendScript sources

    - [src/PictureList_Import.jsx] (module [PictureList_Import] below), and
    - [src/unnamed/part_000], an earlier copy of the same script
      (module [Part000] below),

    together with the properties of the row-to-layer matcher, of the
    variant generator and of the file-name derivation.

    Conventions of the embedding.
    - A JavaScript string is a [string]; each [ascii] stands for one code
      unit in the range 0..255.
    - A JavaScript array is a [list]; [arr[i]] is stdpp's [arr !! i], where
      [None] stands for [undefined].
    - A worksheet row (an object produced by [XLSX.utils.sheet_to_json]) is
      a [gmap string string]; a cell that is absent reads as [undefined].
    - Layer indices and the sentinel [-1] are integers ([Z]).
    - Host effects (documents on disk, dialogs) are threaded through the
      state-and-exception monad [Script]. *)

From Stdlib Require Import ZArith Ascii String.
From stdpp Require Import base tactics option list sorting strings gmap fin_maps.

Local Open Scope Z_scope.
Set Warnings "-clear-no-such-hyp".

(** ** JavaScript strings *)

(** [s.split(sep)] for a separator of one code unit.  The result is never
    empty: the empty string splits into one empty component. *)
Fixpoint split (sep : ascii) (s : string) : list string :=
  match s with
  | EmptyString => [EmptyString]
  | String c s' =>
      if Ascii.eqb c sep then EmptyString :: split sep s'
      else match split sep s' with
           | [] => [String c EmptyString]
           | x :: xs => String c x :: xs
           end
  end.

(** [arr.join(sep)]. *)
Fixpoint join (sep : string) (arr : list string) : string :=
  match arr with
  | [] => EmptyString
  | [x] => x
  | x :: xs => x +:+ sep +:+ join sep xs
  end.

(** [arr[i] += suffix].  Inside the array the slot is updated in place.
    Past the end, JavaScript reads [undefined], concatenates, and extends
    the array up to the new slot; the holes in between are rendered by
    [join] as empty strings, and are kept here as such. *)
Definition append_at (i : nat) (suffix : string) (arr : list string) : list string :=
  match arr !! i with
  | Some x => <[i := x +:+ suffix]> arr
  | None => arr ++ replicate (i - length arr) EmptyString ++ ["undefined" +:+ suffix]
  end.

(** The character class [\s] of [WHITESPACE_REGEX = /\s/g], on the code
    units below 256: TAB, LF, VT, FF, CR, SPACE and NBSP. *)
Definition WHITESPACE_REGEX (c : ascii) : bool :=
  match N_of_ascii c with
  | 9%N | 10%N | 11%N | 12%N | 13%N | 32%N | 160%N => true
  | _ => false
  end.

(** [s.replace(re, repl)] for a global regular expression [re] that matches
    single code units: every matching code unit is replaced by [repl]. *)
Fixpoint replace (re : ascii → bool) (repl : string) (s : string) : string :=
  match s with
  | EmptyString => EmptyString
  | String c s' =>
      if re c then repl +:+ replace re repl s'
      else String c (replace re repl s')
  end.

(** ** File names *)

(** [generateTargetFilename(sourceName, targetLang)]; the function is the
    same in both source files. *)
Definition generateTargetFilename (sourceName targetLang : string) : string :=
  let nameComponents := split "." sourceName in
  let nameComponents :=
    append_at (Z.to_nat (Z.max 0 (Z.of_nat (length nameComponents) - 2)))
              ("_" +:+ targetLang) nameComponents in
  join "." nameComponents.

(** ** Exceptions and the host *)

(** What a script can throw: a [TypeError] of the interpreter (a property
    of [undefined] is read or written), an [IOError] of the host (a file
    cannot be opened), and a [HostError] (the host refuses a value that is
    not a string as text contents). *)
Inductive Exn := TypeError | IOError | HostError.

Inductive Completion (A : Type) :=
  | Normal (a : A)
  | Throw (e : Exn).
Arguments Normal {A} a.
Arguments Throw {A} e.

Global Instance Completion_ret : MRet Completion := λ A a, Normal a.
Global Instance Completion_bind : MBind Completion := λ A B f m,
  match m with
  | Normal a => f a
  | Throw e => Throw e
  end.

Global Instance Completion_fmap : FMap Completion := λ A B f m,
  match m with
  | Normal a => Normal (f a)
  | Throw e => Throw e
  end.

(** The value of [x] when it is not [undefined]; a [TypeError] otherwise. *)
Definition defined {A} (x : option A) : Completion A :=
  match x with
  | Some a => Normal a
  | None => Throw TypeError
  end.

(** [arr[i]] for an integer [i]; [undefined] out of range. *)
Definition array_get {A} (arr : list A) (i : Z) : option A :=
  if decide (0 ≤ i) then arr !! Z.to_nat i else None.

(** A layer of a Photoshop document and a text frame of an Illustrator or
    InDesign document. *)
Inductive LayerKind := NORMAL | TEXT | SOLIDFILL | SMARTOBJECT.

Global Instance LayerKind_eq_dec : EqDecision LayerKind.
Proof. solve_decision. Defined.

Record Layer := { kind : LayerKind; textItem_contents : string }.
Record TextFrame := { contents : string }.
Record Document := { layers : list Layer; textFrames : list TextFrame }.

(** A [File] object: [path] is the folder, [name] the last component. *)
Record File := { path : string; name : string }.
Definition fullName (f : File) : string := path f +:+ "/" +:+ name f.

Record Languages := { source : string; target : list string }.

(** A worksheet row; [row !! lang] is [row[lang]]. *)
Abbreviation Row := (gmap string string).

(** The host application: its name, the documents on disk (by full path,
    compared as strings) and the answers of the user to [confirm]. *)
Record Host := {
  app_name : string;
  files : gmap string Document;
  confirm_answer : string → bool;
}.

Definition set_files (fs : gmap string Document) (h : Host) : Host :=
  {| app_name := app_name h; files := fs; confirm_answer := confirm_answer h |}.

Definition Script (A : Type) : Type := Host → Host * Completion A.

Global Instance Script_ret : MRet Script := λ A a h, (h, Normal a).
Global Instance Script_bind : MBind Script := λ A B f m h,
  match m h with
  | (h', Normal a) => f a h'
  | (h', Throw e) => (h', Throw e)
  end.

(** A computation that only throws, run inside a script. *)
Definition lift {A} (c : Completion A) : Script A := λ h, (h, c).

(** [try { body } catch (err) { handler(err) }] *)
Definition try_catch {A} (body : Script A) (handler : Exn → Script A) : Script A := λ h,
  match body h with
  | (h', Normal a) => (h', Normal a)
  | (h', Throw e) => handler e h'
  end.

(** [app.name] *)
Definition get_app_name : Script string := λ h, (h, Normal (app_name h)).

(** [app.open(file)]: the document read from disk; edits of the returned
    document stay in memory until [save]. *)
Definition app_open (file : string) : Script Document := λ h,
  match files h !! file with
  | Some d => (h, Normal d)
  | None => (h, Throw IOError)
  end.

(** [document.save()] for the document opened from [file]. *)
Definition Document_save (file : string) (d : Document) : Script unit := λ h,
  (set_files (<[file := d]> (files h)) h, Normal ()).

(** [document.close()] *)
Definition Document_close : Script unit := λ h, (h, Normal ()).

(** [src.copy(dst)]: [false], and no change, when [src] does not exist. *)
Definition File_copy (src dst : string) : Script bool := λ h,
  match files h !! src with
  | Some d => (set_files (<[dst := d]> (files h)) h, Normal true)
  | None => (h, Normal false)
  end.

(** [confirm(message)] *)
Definition confirm (message : string) : Script bool := λ h,
  (h, Normal (confirm_answer h message)).

(** [for (var i = start; i < arr.length; ++i) body(i, arr[i])] with the
    loop state [s] passed along; a throw leaves the loop. *)
Fixpoint for_each {M : Type → Type} `{!MBind M, !MRet M} {A St : Type}
    (body : nat → A → St → M St) (i : nat) (arr : list A) (s : St) : M St :=
  match arr with
  | [] => mret s
  | x :: rest => s' ← body i x s; for_each body (S i) rest s'
  end.

(** ** Text layers (the same in both source files) *)

Definition ADOBE_PHOTOSHOP : string := "Adobe Photoshop".
Definition ADOBE_ILLUSTRATOR : string := "Adobe Illustrator".
Definition ADOBE_INDESIGN : string := "Adobe InDesign".

(** The [switch (app.name)] of the three functions below: the first branch
    is taken for Illustrator and InDesign, the second for Photoshop and by
    default. *)
Definition switch_app {A} (appName : string) (frames layers_ : A) : A :=
  if bool_decide (appName = ADOBE_ILLUSTRATOR) || bool_decide (appName = ADOBE_INDESIGN)
  then frames else layers_.

(** The loop of [getDocumentTextLayers] over [document.layers]: the
    positions, from [i] on, of the layers of kind [TEXT]. *)
Fixpoint text_layers_from (i : nat) (ls : list Layer) : list nat :=
  match ls with
  | [] => []
  | l :: ls' =>
      if decide (kind l = TEXT) then i :: text_layers_from (S i) ls'
      else text_layers_from (S i) ls'
  end.

(** [getDocumentTextLayers(document)].  A layer or frame object is
    represented by its position in [document.layers], respectively
    [document.textFrames]. *)
Definition getDocumentTextLayers (appName : string) (document : Document) : list nat :=
  switch_app appName
    (seq 0 (length (textFrames document)))
    (text_layers_from 0 (layers document)).

(** [getLayerText(layer)] *)
Definition getLayerText (appName : string) (document : Document) (layer : nat)
  : Completion string :=
  switch_app appName
    (contents <$> defined (textFrames document !! layer))
    (textItem_contents <$> defined (layers document !! layer)).

(** The host takes a string as text contents and refuses [undefined]. *)
Definition host_string (newText : option string) : Completion string :=
  match newText with
  | Some s => Normal s
  | None => Throw HostError
  end.

(** [setLayerText(layer, newText)], on the document that owns the layer.
    [layer] is [undefined] when the caller indexed the array of text layers
    out of range; [newText] is [undefined] when the worksheet cell is
    absent. *)
Definition setLayerText (appName : string) (layer : option nat)
    (newText : option string) (document : Document) : Completion Document :=
  layer ← defined layer;
  switch_app appName
    (_ ← defined (textFrames document !! layer);
     text ← host_string newText;
     mret {| layers := layers document;
             textFrames := <[layer := {| contents := text |}]> (textFrames document) |})
    (l ← defined (layers document !! layer);
     text ← host_string newText;
     mret {| layers := <[layer := {| kind := kind l; textItem_contents := text |}]>
                         (layers document);
             textFrames := textFrames document |}).

(** The texts of the text-bearing elements of a document, in the order of
    enumeration.  Not a function of the scripts: the view of a document on
    which the properties are stated. *)
Definition element_texts (appName : string) (document : Document) : list string :=
  switch_app appName
    (contents <$> textFrames document)
    (textItem_contents <$> filter (λ l, kind l = TEXT) (layers document)).

Definition LF : string := String (ascii_of_nat 10) EmptyString.

(** [localize(UI_MESSAGES.MISSING_SHEET_ROWS, arg)] *)
Definition localize_MISSING_SHEET_ROWS (arg : string) : string :=
  "Picture list entries not found in file:" +:+ LF +:+ LF +:+ arg
    +:+ LF +:+ LF +:+ "Proceed?".

(** ** src/PictureList_Import.jsx *)

Module PictureList_Import.

(** The loop of [findMatchingTextLayer]; [rest] is [layerIndices] from
    position [i] on, so that its head is [layerIndices[i]].  The result is
    the returned index and the two arrays after the call. *)
Fixpoint findMatchingTextLayer_loop (layerTextStrings : list string)
    (layerIndices : list Z) (searchText : string) (i : nat) (rest : list Z)
  : Z * (list string * list Z) :=
  match rest with
  | [] => (-1, (layerTextStrings, layerIndices))
  | matchIndex :: rest' =>
      if decide (layerTextStrings !! i = Some searchText) then
        (matchIndex, (delete i layerTextStrings, delete i layerIndices))
      else
        findMatchingTextLayer_loop layerTextStrings layerIndices searchText (S i) rest'
  end.

(** [findMatchingTextLayer(layerTextStrings, layerIndices, searchText)] *)
Definition findMatchingTextLayer (layerTextStrings : list string)
    (layerIndices : list Z) (searchText : string) : Z * (list string * list Z) :=
  if decide (0 < length layerIndices)%nat then
    findMatchingTextLayer_loop layerTextStrings layerIndices searchText 0 layerIndices
  else (-1, (layerTextStrings, layerIndices)).

(** One turn of the loop over the text layers, lines 295-296. *)
Definition pool_entry (appName : string) (sourceDocument : Document)
    (i : nat) (layer : nat) (st : list Z * list string)
  : Completion (list Z * list string) :=
  let '(layerIndices, layerTextStrings) := st in
  text ← getLayerText appName sourceDocument layer;
  mret (layerIndices ++ [Z.of_nat i],
        layerTextStrings ++ [replace WHITESPACE_REGEX EmptyString text]).

(** Lines 292-297 of [mapTextLayers]: the pool of candidates,
    [(layerIndices, layerTextStrings)]. *)
Definition collect_pool (appName : string) (sourceDocument : Document)
    (textLayers : list nat) : Completion (list Z * list string) :=
  for_each (pool_entry appName sourceDocument) 0%nat textLayers ([], []).

(** One turn of the loop over the rows, lines 303-308. *)
Definition match_row (sourceLang : string) (dataRow : nat) (row : Row)
    (st : list string * list Z * list Z * list string)
  : Completion (list string * list Z * list Z * list string) :=
  let '(layerTextStrings, layerIndices, textLayerMap, missingText) := st in
  cell ← defined (row !! sourceLang);
  let trimmedSourceText := replace WHITESPACE_REGEX EmptyString cell in
  let '(layerMatchIndex, (layerTextStrings', layerIndices')) :=
    findMatchingTextLayer layerTextStrings layerIndices trimmedSourceText in
  mret (layerTextStrings', layerIndices', textLayerMap ++ [layerMatchIndex],
        if decide (layerMatchIndex = -1) then missingText ++ [cell] else missingText).

(** Lines 300-309: the rows against the pool; the result is
    [(textLayerMap, missingText)]. *)
Definition match_rows (worksheetData : list Row) (sourceLang : string)
    (layerTextStrings : list string) (layerIndices : list Z)
  : Completion (list Z * list string) :=
  '(_, _, textLayerMap, missingText) ←
    for_each (match_row sourceLang) 0%nat worksheetData
             (layerTextStrings, layerIndices, [], []);
  mret (textLayerMap, missingText).

(** Lines 289-309 of [mapTextLayers]: up to the two arrays
    [(textLayerMap, missingText)]. *)
Definition mapTextLayers_match (ccFile : File) (worksheetData : list Row)
    (sourceLang : string) : Script (list Z * list string) :=
  sourceDocument ← app_open (fullName ccFile);
  appName ← get_app_name;
  let textLayers := getDocumentTextLayers appName sourceDocument in
  '(layerIndices, layerTextStrings) ← lift (collect_pool appName sourceDocument textLayers);
  _ ← Document_close;
  lift (match_rows worksheetData sourceLang layerTextStrings layerIndices).

(** [mapTextLayers(ccFile, worksheetData, sourceLang)]; [None] is [null]. *)
Definition mapTextLayers (ccFile : File) (worksheetData : list Row)
    (sourceLang : string) : Script (option (list Z)) :=
  '(textLayerMap, missingText) ← mapTextLayers_match ccFile worksheetData sourceLang;
  if decide (0 < length missingText)%nat then
    ok ← confirm (localize_MISSING_SHEET_ROWS ("-" +:+ join (LF +:+ "-") missingText));
    if ok : bool then mret (Some textLayerMap) else mret None
  else mret (Some textLayerMap).

(** The body of the loop over the rows in [generateLocalizedFiles],
    lines 338-341.  [textLayerMap[dataRow]] is [undefined] past the end of
    the map; it is then different from [-1] and indexes no text layer. *)
Definition write_row (appName : string) (textLayers : list nat)
    (textLayerMap : list Z) (currentLang : string)
    (dataRow : nat) (row : Row) (targetDoc : Document) : Completion Document :=
  match textLayerMap !! dataRow with
  | Some layerIndex =>
      if decide (layerIndex = -1) then mret targetDoc
      else setLayerText appName (array_get textLayers layerIndex)
                        (row !! currentLang) targetDoc
  | None => setLayerText appName None (row !! currentLang) targetDoc
  end.

(** The body of the loop over the languages, lines 330-345. *)
Definition generate_variant (ccFile : File) (worksheetData : list Row)
    (textLayerMap : list Z) (langIndex : nat) (currentLang : string) (_ : unit)
  : Script unit :=
  let targetFilename := generateTargetFilename (name ccFile) currentLang in
  let targetFile := path ccFile +:+ "/" +:+ targetFilename in
  _ ← File_copy (fullName ccFile) targetFile;
  targetDoc ← app_open targetFile;
  appName ← get_app_name;
  let textLayers := getDocumentTextLayers appName targetDoc in
  targetDoc ← lift (for_each (write_row appName textLayers textLayerMap currentLang)
                             0%nat worksheetData targetDoc);
  _ ← Document_save targetFile targetDoc;
  Document_close.

(** [generateLocalizedFiles(ccFile, selectedLanguages, worksheetData, textLayerMap)] *)
Definition generateLocalizedFiles (ccFile : File) (selectedLanguages : Languages)
    (worksheetData : list Row) (textLayerMap : list Z) : Script unit :=
  for_each (generate_variant ccFile worksheetData textLayerMap)
           0%nat (target selectedLanguages) ().

(** [main], from line 402 on, without the alerts: the map, then the
    variants unless the user declined; [try]/[catch] ends a throw of
    [generateLocalizedFiles]. *)
Definition localize_document (ccFile : File) (selectedLanguages : Languages)
    (worksheetData : list Row) : Script unit :=
  textLayerMap ← mapTextLayers ccFile worksheetData (source selectedLanguages);
  match textLayerMap with
  | None => mret ()
  | Some textLayerMap =>
      try_catch
        (generateLocalizedFiles ccFile selectedLanguages worksheetData textLayerMap)
        (λ _, mret ())
  end.

End PictureList_Import.

(** ** src/unnamed/part_000 *)

Module Part000.

(** The loop of [findMatchingTextLayer]; [rest] is [textLayers] from
    position [i] on.  The text of each layer is read from the document as
    it is when the function is called; [searchText] is [undefined] when the
    worksheet cell is absent, which throws once the loop body runs. *)
Fixpoint findMatchingTextLayer_loop (appName : string) (document : Document)
    (searchText : option string) (i : nat) (rest : list nat) : Completion Z :=
  match rest with
  | [] => mret (-1)
  | layer :: rest' =>
      layerText ← getLayerText appName document layer;
      text ← getLayerText appName document layer;
      search ← defined searchText;
      if decide (replace WHITESPACE_REGEX EmptyString text
                 = replace WHITESPACE_REGEX EmptyString search)
      then mret (Z.of_nat i)
      else findMatchingTextLayer_loop appName document searchText (S i) rest'
  end.

(** [findMatchingTextLayer(textLayers, searchText)] *)
Definition findMatchingTextLayer (appName : string) (document : Document)
    (textLayers : list nat) (searchText : option string) : Completion Z :=
  findMatchingTextLayer_loop appName document searchText 0 textLayers.

(** The body of the loop over the rows in [generateLocalizedFiles],
    lines 244-257; the state is [dataLayerIndices] and the open target
    document. *)
Definition localize_row (appName : string) (textLayers : list nat)
    (sourceLang currentLang : string) (dataRow : nat) (row : Row)
    (st : list Z * Document) : Completion (list Z * Document) :=
  let '(dataLayerIndices, targetDoc) := st in
  dataLayerIndices ←
    (if decide (length dataLayerIndices < dataRow + 1)%nat then
       matchingLayerIndex ←
         findMatchingTextLayer appName targetDoc textLayers (row !! sourceLang);
       mret (dataLayerIndices ++ [matchingLayerIndex])
     else mret dataLayerIndices);
  match dataLayerIndices !! dataRow with
  | Some layerIndex =>
      if decide (layerIndex = -1) then mret (dataLayerIndices, targetDoc)
      else
        targetDoc ← setLayerText appName (array_get textLayers layerIndex)
                                 (row !! currentLang) targetDoc;
        mret (dataLayerIndices, targetDoc)
  | None =>
      targetDoc ← setLayerText appName None (row !! currentLang) targetDoc;
      mret (dataLayerIndices, targetDoc)
  end.

(** The body of the loop over the languages, lines 236-261; the state is
    [dataLayerIndices]. *)
Definition generate_variant (ccFile : File) (sourceLang : string)
    (worksheetData : list Row) (langIndex : nat) (currentLang : string)
    (dataLayerIndices : list Z) : Script (list Z) :=
  let targetFilename := generateTargetFilename (name ccFile) currentLang in
  let targetFile := path ccFile +:+ "/" +:+ targetFilename in
  _ ← File_copy (fullName ccFile) targetFile;
  targetDoc ← app_open targetFile;
  appName ← get_app_name;
  let textLayers := getDocumentTextLayers appName targetDoc in
  '(dataLayerIndices, targetDoc) ←
    lift (for_each (localize_row appName textLayers sourceLang currentLang)
                   0%nat worksheetData (dataLayerIndices, targetDoc));
  _ ← Document_save targetFile targetDoc;
  _ ← Document_close;
  mret dataLayerIndices.

(** The loop of [generateLocalizedFiles]; the result is [dataLayerIndices]
    when the loop ends. *)
Definition generateLocalizedFiles_loop (ccFile : File) (selectedLanguages : Languages)
    (worksheetData : list Row) : Script (list Z) :=
  for_each (generate_variant ccFile (source selectedLanguages) worksheetData)
           0%nat (target selectedLanguages) [].

(** [generateLocalizedFiles(ccFile, selectedLanguages, worksheetData)] *)
Definition generateLocalizedFiles (ccFile : File) (selectedLanguages : Languages)
    (worksheetData : list Row) : Script unit :=
  _ ← generateLocalizedFiles_loop ccFile selectedLanguages worksheetData;
  mret ().

End Part000.

(** ** The choice of the languages

    [userSelectLanguages] and the lines of [main] around it are the same in
    [PictureList_Import.jsx] and in [part_000].  The dialog is modal: what
    the user does while it is shown is a list of actions, followed by one
    of the two buttons. *)

(** A check box of the dialog: the two properties the script reads and
    writes.  A new check box is enabled and not checked. *)
Record Checkbox := { enabled : bool; value : bool }.

(** The state the handler and the end of [userSelectLanguages] work on:
    [srcLangDropdown.selection] as the index of the item,
    [srcLangDropdown.currentLang], and the object [targetLangCheckboxes]. *)
Record LanguageDialog := {
  selection : nat;
  currentLang : option string;
  targetLangCheckboxes : gmap string Checkbox }.

(** The loop that creates the check boxes, lines 123-131: a later language
    of the same name replaces the property. *)
Fixpoint add_checkboxes (i : nat) (languages : list string)
    (targetLangCheckboxes : gmap string Checkbox) : gmap string Checkbox :=
  match languages with
  | [] => targetLangCheckboxes
  | lang :: rest =>
      let checkbox :=
        if decide (i = 0%nat) then {| enabled := false; value := false |}
        else {| enabled := true; value := true |} in
      add_checkboxes (S i) rest (<[lang := checkbox]> targetLangCheckboxes)
  end.

(** The dialog as it is first shown, lines 115-131. *)
Definition initial_dialog (languages : list string) : LanguageDialog :=
  {| selection := 0%nat;
     currentLang := languages !! 0%nat;
     targetLangCheckboxes := add_checkboxes 0 languages ∅ |}.

(** [srcLangDropdown.selection.text] *)
Definition selection_text (languages : list string) (d : LanguageDialog)
  : Completion string :=
  defined (languages !! selection d).

(** An assignment to a property of the check box
    [targetLangCheckboxes[key]]; the key [undefined] names the property
    [undefined], and an absent property has no property to assign to. *)
Definition set_checkbox (update : Checkbox → Checkbox) (key : option string)
    (targetLangCheckboxes : gmap string Checkbox)
  : Completion (gmap string Checkbox) :=
  let key := default "undefined" key in
  checkbox ← defined (targetLangCheckboxes !! key);
  mret (<[key := update checkbox]> targetLangCheckboxes).

(** [srcLangDropdown.onChange], lines 134-141. *)
Definition onChange (languages : list string) (d : LanguageDialog)
  : Completion LanguageDialog :=
  text ← selection_text languages d;
  if decide (Some text ≠ currentLang d) then
    checkboxes ← set_checkbox (λ c, {| enabled := true; value := value c |})
                              (currentLang d) (targetLangCheckboxes d);
    checkboxes ← set_checkbox (λ c, {| enabled := false; value := value c |})
                              (Some text) checkboxes;
    checkboxes ← set_checkbox (λ c, {| enabled := enabled c; value := false |})
                              (Some text) checkboxes;
    mret {| selection := selection d;
            currentLang := Some text;
            targetLangCheckboxes := checkboxes |}
  else mret d.

(** What the user can do while the dialog is shown: choose an item of the
    drop-down list, which runs the handler, or click the check box of a
    language, which toggles it unless it is disabled. *)
Inductive UserAction :=
  | ChooseSource (item : nat)
  | ClickTarget (lang : string).

Definition user_action (languages : list string) (action : UserAction)
    (d : LanguageDialog) : Completion LanguageDialog :=
  match action with
  | ChooseSource item =>
      if decide (item < length languages)%nat then
        onChange languages {| selection := item;
                              currentLang := currentLang d;
                              targetLangCheckboxes := targetLangCheckboxes d |}
      else mret d
  | ClickTarget lang =>
      match targetLangCheckboxes d !! lang with
      | Some checkbox =>
          if enabled checkbox then
            mret {| selection := selection d;
                    currentLang := currentLang d;
                    targetLangCheckboxes :=
                      <[lang := {| enabled := enabled checkbox;
                                   value := negb (value checkbox) |}]>
                        (targetLangCheckboxes d) |}
          else mret d
      | None => mret d
      end
  end.

Fixpoint user_actions (languages : list string) (actions : list UserAction)
    (d : LanguageDialog) : Completion LanguageDialog :=
  match actions with
  | [] => mret d
  | action :: rest =>
      d' ← user_action languages action d;
      user_actions languages rest d'
  end.

(** The loop that collects the checked languages, lines 153-158. *)
Fixpoint selected_targets (targetLangCheckboxes : gmap string Checkbox)
    (languages : list string) (selectedTargetLangs : list string)
  : Completion (list string) :=
  match languages with
  | [] => mret selectedTargetLangs
  | lang :: rest =>
      checkbox ← defined (targetLangCheckboxes !! lang);
      selected_targets targetLangCheckboxes rest
        (if value checkbox then selectedTargetLangs ++ [lang] else selectedTargetLangs)
  end.

(** [userSelectLanguages(languages)], for what the user does in the dialog
    and the button that closes it; [None] is the object whose [source] is
    [null]. *)
Definition userSelectLanguages (languages : list string)
    (actions : list UserAction) (cancelled : bool) : Completion (option Languages) :=
  d ← user_actions languages actions (initial_dialog languages);
  if cancelled then mret None
  else
    selectedTargetLangs ← selected_targets (targetLangCheckboxes d) languages [];
    text ← selection_text languages d;
    mret (Some {| source := text; target := selectedTargetLangs |}).

(** [arr.indexOf(x)], counted from [i]. *)
Fixpoint indexOf (x : string) (arr : list string) (i : nat) : Z :=
  match arr with
  | [] => -1
  | y :: rest => if decide (y = x) then Z.of_nat i else indexOf x rest (S i)
  end.

(** The list of the languages, lines 382-386 of [main]: the keys of the
    first row without the first key [__rowNum__]. *)
Definition languages_of_keys (keys : list string) : list string :=
  let rowNumPropIndex := indexOf "__rowNum__" keys 0 in
  if decide (rowNumPropIndex ≠ -1) then delete (Z.to_nat rowNumPropIndex) keys
  else keys.


(** ** Vocabulary of the properties *)

(** [s] contains the code unit [c]. *)
Fixpoint includes (c : ascii) (s : string) : bool :=
  match s with
  | EmptyString => false
  | String c' s' => Ascii.eqb c' c || includes c s'
  end.

(** The normalized key of a text: the text without its whitespace. *)
Definition NormalizedKey (text : string) : string :=
  replace WHITESPACE_REGEX EmptyString text.

(** Two texts differ only in whitespace: one is obtained from the other by
    inserting and deleting whitespace code units. *)
Inductive differ_only_in_whitespace : string → string → Prop :=
  | diff_ws_nil : differ_only_in_whitespace EmptyString EmptyString
  | diff_ws_same c s t :
      differ_only_in_whitespace s t →
      differ_only_in_whitespace (String c s) (String c t)
  | diff_ws_left c s t :
      WHITESPACE_REGEX c = true →
      differ_only_in_whitespace s t →
      differ_only_in_whitespace (String c s) t
  | diff_ws_right c s t :
      WHITESPACE_REGEX c = true →
      differ_only_in_whitespace s t →
      differ_only_in_whitespace s (String c t).

(** The number of entries of a layer map that are not the sentinel. *)
Definition matched_count (textLayerMap : list Z) : nat :=
  length (filter (λ e, e ≠ -1) textLayerMap).

(** ** The matcher on a pool of pairs

    The two arrays [layerIndices] and [layerTextStrings] are handled in
    step; the proofs read them as one list of pairs (index, key).  The two
    functions below are what [findMatchingTextLayer] and the loop over the
    rows compute on that list; they are related to the embedding of the
    source in [findMatchingTextLayer_pool] and [for_each_match_row]. *)

(** The pool built from the texts of the elements: each element index
    with the normalized key of its text. *)
Definition pool_of (texts : list string) : list (Z * string) :=
  imap (λ i text, (Z.of_nat i, NormalizedKey text)) texts.

(** The first pair of the pool with the key, and the pool without it. *)
Fixpoint find_claim (key : string) (pool : list (Z * string))
  : option (Z * list (Z * string)) :=
  match pool with
  | [] => None
  | (i, k) :: rest =>
      if decide (k = key) then Some (i, rest)
      else '(j, rest') ← find_claim key rest; Some (j, (i, k) :: rest')
  end.

(** The claims of the source cells, in row order: the pool that is left,
    the claimed indices and the cells that found no pair. *)
Fixpoint claim_rows (pool : list (Z * string)) (cells : list string)
  : list (Z * string) * (list Z * list string) :=
  match cells with
  | [] => (pool, ([], []))
  | cell :: rest =>
      let '(e, pool') := default (-1, pool) (find_claim (NormalizedKey cell) pool) in
      let '(pool'', (claimed, missing)) := claim_rows pool' rest in
      (pool'', (e :: claimed, if decide (e = -1) then cell :: missing else missing))
  end.

(** ** Vocabulary of the duplicate policy *)

(** Element [n] of [texts] has the normalized key of [cell]. *)
Definition has_key (texts : list string) (cell : string) (n : nat) : Prop :=
  ∃ text, texts !! n = Some text ∧ NormalizedKey text = NormalizedKey cell.

(** Element [n] is claimed in [textLayerMap] by a row before row [r]. *)
Definition claimed_before (textLayerMap : list Z) (r n : nat) : Prop :=
  ∃ r', (r' < r)%nat ∧ textLayerMap !! r' = Some (Z.of_nat n).

(** The entry [e] of row [r], whose source cell is [cell], is the first
    element with the key of the cell that no earlier row claimed; it is the
    sentinel when the earlier rows claimed every element with that key. *)
Definition first_available (texts : list string) (textLayerMap : list Z)
    (r : nat) (cell : string) (e : Z) : Prop :=
  (e = -1 ∧ ∀ n, has_key texts cell n → claimed_before textLayerMap r n)
  ∨ (∃ n, e = Z.of_nat n ∧ has_key texts cell n ∧
          ¬ claimed_before textLayerMap r n ∧
          ∀ n', (n' < n)%nat → has_key texts cell n' →
                claimed_before textLayerMap r n').

(** The source cell of row [r]. *)
Definition source_cell (rows : list Row) (sourceLang : string) (r : nat)
  : option string :=
  row ← rows !! r; row !! sourceLang.

(** ** Vocabulary of the variants *)

(** The file of the variant of a language, as [generateLocalizedFiles]
    names it in both source files. *)
Definition target_file (ccFile : File) (currentLang : string) : string :=
  path ccFile +:+ "/" +:+ generateTargetFilename (name ccFile) currentLang.

(** Lines 336-342 of [generateLocalizedFiles] in [PictureList_Import.jsx],
    as a function of the copy that was opened: the text layers of the copy
    are enumerated and the rows are written into it. *)
Definition write_rows (appName : string) (textLayerMap : list Z) (currentLang : string)
    (worksheetData : list Row) (targetDoc : Document) : Completion Document :=
  for_each (PictureList_Import.write_row appName
              (getDocumentTextLayers appName targetDoc) textLayerMap currentLang)
           0%nat worksheetData targetDoc.

(** ** Vocabulary of the dialog *)

(** The check box of a language is checked. *)
Definition is_checked (targetLangCheckboxes : gmap string Checkbox) (lang : string)
  : bool :=
  match targetLangCheckboxes !! lang with
  | Some checkbox => value checkbox
  | None => false
  end.

(** What holds of the dialog whatever the user does: the recorded language
    is the selected item, its check box is disabled and not checked, and
    every language has a check box. *)
Definition dialog_invariant (languages : list string) (d : LanguageDialog) : Prop :=
  ∃ lang,
    currentLang d = Some lang ∧
    languages !! selection d = Some lang ∧
    targetLangCheckboxes d !! lang = Some {| enabled := false; value := false |} ∧
    ∀ lang', lang' ∈ languages → is_Some (targetLangCheckboxes d !! lang').

(** ** Sample inputs *)

Definition text_layer (text : string) : Layer :=
  {| kind := TEXT; textItem_contents := text |}.

Definition image_layer : Layer :=
  {| kind := NORMAL; textItem_contents := EmptyString |}.

Definition poster : File := {| path := "/work"; name := "poster.psd" |}.
Definition flyer : File := {| path := "/work"; name := "flyer.indd" |}.

(** A host in which only the template exists, and a user who confirms. *)
Definition host_with (appName : string) (template : File) (document : Document) : Host :=
  {| app_name := appName;
     files := {[ fullName template := document ]};
     confirm_answer := λ _, true |}.

Definition en_fr (en fr : string) : Row := {[ "en" := en; "fr" := fr ]}.

Definition to_fr : Languages := {| source := "en"; target := ["fr"] |}.

(** Two text layers around an image; the second text ends in a space. *)
Definition greeting_psd : Document :=
  {| layers := [text_layer "Hello"; image_layer; text_layer "Bye "]; textFrames := [] |}.

(** The same texts as frames of an InDesign document. *)
Definition greeting_indd : Document :=
  {| layers := []; textFrames := [{| contents := "Hello" |}; {| contents := "Bye " |}] |}.

Definition greeting_rows : list Row :=
  [en_fr "Hello" "Bonjour"; en_fr "Bye" "Au revoir"].

(** One element, and two rows with its text. *)
Definition hello_psd : Document :=
  {| layers := [text_layer "Hello"]; textFrames := [] |}.

Definition hello_twice : list Row :=
  [en_fr "Hello" "Bonjour"; en_fr "Hello" "Salut"].

(** The translation of the first row is the source text of the second. *)
Definition chain_psd : Document :=
  {| layers := [text_layer "A"; text_layer "B"]; textFrames := [] |}.

Definition chain_rows : list Row := [en_fr "A" "B"; en_fr "B" "C"].

(** A worksheet with two target languages. *)
Definition en_fr_de (en fr de : string) : Row :=
  {[ "en" := en; "fr" := fr; "de" := de ]}.

Definition to_fr_de : Languages := {| source := "en"; target := ["fr"; "de"] |}.

Definition greeting_rows_fr_de : list Row :=
  [en_fr_de "Hello" "Bonjour" "Hallo"; en_fr_de "Bye" "Au revoir" "Tschuess"].

(** * Properties *)

(** ** Strings *)

Section strings.
Implicit Types (s t u glue : string) (c sep : ascii) (arr : list string).

Lemma string_app_nil_l s : EmptyString +:+ s = s.
Proof. reflexivity. Qed.

Lemma string_app_cons c s t : String c s +:+ t = String c (s +:+ t).
Proof. reflexivity. Qed.

Lemma string_app_nil_r s : s +:+ EmptyString = s.
Proof. induction s as [|c s IH]; [done | by rewrite string_app_cons, IH]. Qed.

Lemma string_app_assoc s t u : (s +:+ t) +:+ u = s +:+ (t +:+ u).
Proof. induction s as [|c s IH]; [done | by rewrite !string_app_cons, IH]. Qed.

Lemma string_length_app s t :
  String.length (s +:+ t) = (String.length s + String.length t)%nat.
Proof. induction s as [|c s IH]; [done | rewrite string_app_cons; simpl; by rewrite IH]. Qed.

Lemma split_nonempty sep s : split sep s ≠ [].
Proof.
  destruct s as [|c s]; simpl; [done |].
  destruct (Ascii.eqb c sep); [done |].
  by destruct (split sep s).
Qed.

Lemma split_snoc sep s : ∃ init last, split sep s = init ++ [last].
Proof.
  destruct (split sep s) as [|x xs] eqn:E using rev_ind.
  - by apply split_nonempty in E.
  - eauto.
Qed.

Lemma split_no_sep sep s : includes sep s = false → split sep s = [s].
Proof.
  induction s as [|c s IH]; simpl; [done |].
  intros [Hc Hs]%orb_false_iff. rewrite Hc, (IH Hs). done.
Qed.

Lemma split_app_sep sep s t :
  split sep (s +:+ String sep t) = split sep s ++ split sep t.
Proof.
  induction s as [|c s IH]; rewrite ?string_app_nil_l, ?string_app_cons; simpl.
  - by rewrite Ascii.eqb_refl.
  - destruct (Ascii.eqb c sep); rewrite IH; [done |].
    pose proof (split_nonempty sep s).
    by destruct (split sep s).
Qed.

Lemma join_cons glue x arr :
  arr ≠ [] → join glue (x :: arr) = x +:+ glue +:+ join glue arr.
Proof. by destruct arr. Qed.

Lemma join_snoc glue arr y :
  arr ≠ [] → join glue (arr ++ [y]) = join glue arr +:+ glue +:+ y.
Proof.
  induction arr as [|x arr IH]; [done |]. intros _.
  destruct arr as [|x' arr]; [done |].
  change ((x :: x' :: arr) ++ [y]) with (x :: ((x' :: arr) ++ [y])).
  rewrite !join_cons, IH, !string_app_assoc by done. done.
Qed.

Lemma join_snoc_suffix glue init x suffix :
  join glue (init ++ [x +:+ suffix]) = join glue (init ++ [x]) +:+ suffix.
Proof.
  destruct init as [|y init _] using rev_ind; [done |].
  rewrite (join_snoc _ (init ++ [y]) (x +:+ suffix)) by (by destruct init).
  rewrite (join_snoc _ (init ++ [y]) x) by (by destruct init).
  by rewrite !string_app_assoc.
Qed.

Lemma join_split sep s : join (String sep EmptyString) (split sep s) = s.
Proof.
  induction s as [|c s IH]; simpl; [done |].
  pose proof (split_nonempty sep s) as Hne.
  destruct (Ascii.eqb_spec c sep) as [->|_].
  - rewrite join_cons, IH by done. done.
  - destruct (split sep s) as [|x [|y xs]]; [done | |]; simpl in *; by rewrite <-IH.
Qed.

(** A string that contains [sep] splits at its last occurrence. *)
Lemma includes_last sep s :
  includes sep s = true →
  ∃ stem ext, s = stem +:+ String sep ext ∧ includes sep ext = false.
Proof.
  induction s as [|c s IH]; simpl; [done |].
  destruct (includes sep s) eqn:Hs.
  - intros _. destruct IH as (stem & ext & -> & Hext); [done |].
    by exists (String c stem), ext.
  - rewrite orb_false_r. intros ->%Ascii.eqb_eq.
    by exists EmptyString, s.
Qed.

Lemma append_at_middle init x rest suffix :
  append_at (length init) suffix (init ++ x :: rest) = init ++ (x +:+ suffix) :: rest.
Proof.
  unfold append_at. rewrite list_lookup_middle by done.
  by rewrite insert_app_r_alt, Nat.sub_diag by done.
Qed.
End strings.

(** ** File names *)

Lemma generateTargetFilename_dot stem ext targetLang :
  includes "." ext = false →
  generateTargetFilename (stem +:+ String "." ext) targetLang
  = stem +:+ "_" +:+ targetLang +:+ String "." ext.
Proof.
  intros Hext. unfold generateTargetFilename.
  rewrite split_app_sep, (split_no_sep _ ext Hext).
  pose proof (join_split "." stem) as Hjoin.
  destruct (split_snoc "." stem) as (init & last & Hsplit).
  rewrite Hsplit in *. rewrite <-(assoc_L (++)). simpl.
  rewrite length_app. simpl.
  replace (Z.to_nat _) with (length init) by lia.
  rewrite append_at_middle.
  change (init ++ [last +:+ "_" +:+ targetLang; ext])
    with (init ++ [last +:+ "_" +:+ targetLang] ++ [ext]).
  rewrite (assoc_L (++)), join_snoc, join_snoc_suffix, Hjoin by (by destruct init).
  by rewrite !string_app_assoc.
Qed.

Lemma generateTargetFilename_no_dot sourceName targetLang :
  includes "." sourceName = false →
  generateTargetFilename sourceName targetLang = sourceName +:+ "_" +:+ targetLang.
Proof.
  intros Hno. unfold generateTargetFilename.
  by rewrite (split_no_sep _ _ Hno).
Qed.

(** The derived name is longer than the source name, whatever the names. *)
Lemma generateTargetFilename_length sourceName targetLang :
  String.length (generateTargetFilename sourceName targetLang)
  = (String.length sourceName + 1 + String.length targetLang)%nat.
Proof.
  destruct (includes "." sourceName) eqn:Hdot.
  - destruct (includes_last _ _ Hdot) as (stem & ext & -> & Hext).
    rewrite generateTargetFilename_dot by done.
    rewrite !string_length_app. simpl. lia.
  - rewrite generateTargetFilename_no_dot by done.
    rewrite !string_length_app. simpl. lia.
Qed.

(** C8.  [generateTargetFilename] puts ["_" + targetLang] right before
    the last dot-separated segment of a name that contains a dot (every
    such name is a stem, a dot and a segment without a dot), and at the end
    of a name without a dot; ["poster.psd"] with ["fr"] gives
    ["poster_fr.psd"] and ["readme"] with ["es"] gives ["readme_es"]. *)
Theorem generateTargetFilename_inserts_suffix :
  (∀ stem ext targetLang,
      includes "." ext = false →
      generateTargetFilename (stem +:+ "." +:+ ext) targetLang
      = stem +:+ "_" +:+ targetLang +:+ "." +:+ ext)
  ∧ (∀ sourceName,
      includes "." sourceName = true →
      ∃ stem ext, sourceName = stem +:+ "." +:+ ext ∧ includes "." ext = false)
  ∧ (∀ sourceName targetLang,
      includes "." sourceName = false →
      generateTargetFilename sourceName targetLang = sourceName +:+ "_" +:+ targetLang)
  ∧ generateTargetFilename "poster.psd" "fr" = "poster_fr.psd"
  ∧ generateTargetFilename "readme" "es" = "readme_es".
Proof.
  split_and!.
  - intros stem ext targetLang Hext. by apply generateTargetFilename_dot.
  - apply includes_last.
  - apply generateTargetFilename_no_dot.
  - reflexivity.
  - reflexivity.
Qed.

Lemma generateTargetFilename_inserts_suffix_witness :
  generateTargetFilename ("archive.v2" +:+ "." +:+ "indd") "de" = "archive.v2_de.indd"
  ∧ generateTargetFilename "LICENSE" "ja" = "LICENSE_ja".
Proof.
  destruct generateTargetFilename_inserts_suffix as (Hdot & _ & Hno & _ & _).
  split.
  - apply (Hdot "archive.v2" "indd" "de"). reflexivity.
  - apply (Hno "LICENSE" "ja"). reflexivity.
Defined.

(** C10.  For a name whose only dot is its first character, the text after
    the dot is the extension and the suffix goes to the empty component in
    front of it: the result is ["_" + targetLang + sourceName], not the
    name followed by the suffix. *)
Theorem generateTargetFilename_dotfile (ext targetLang : string) :
  includes "." ext = false →
  generateTargetFilename ("." +:+ ext) targetLang = "_" +:+ targetLang +:+ ("." +:+ ext)
  ∧ generateTargetFilename ("." +:+ ext) targetLang ≠ ("." +:+ ext) +:+ "_" +:+ targetLang.
Proof.
  intros Hext.
  pose proof (generateTargetFilename_dot EmptyString ext targetLang Hext) as H.
  rewrite string_app_nil_l in H. split; [exact H |].
  change ("." +:+ ext) with (String "." ext). rewrite H. discriminate.
Qed.

Lemma generateTargetFilename_dotfile_witness :
  generateTargetFilename ".psd" "fr" = "_fr.psd"
  ∧ generateTargetFilename ".psd" "fr" ≠ ".psd_fr".
Proof. apply (generateTargetFilename_dotfile "psd" "fr"). reflexivity. Defined.

(** ** Whitespace *)

Lemma NormalizedKey_cons c s :
  NormalizedKey (String c s)
  = if WHITESPACE_REGEX c then NormalizedKey s else String c (NormalizedKey s).
Proof. unfold NormalizedKey. simpl. by destruct (WHITESPACE_REGEX c). Qed.

Lemma differ_only_in_whitespace_key s t :
  differ_only_in_whitespace s t → NormalizedKey s = NormalizedKey t.
Proof.
  induction 1 as [|c s t _ IH|c s t Hc _ IH|c s t Hc _ IH];
    rewrite ?NormalizedKey_cons, ?Hc; [done | | done | done].
  destruct (WHITESPACE_REGEX c); congruence.
Qed.

Lemma key_differ_only_in_whitespace s t :
  NormalizedKey s = NormalizedKey t → differ_only_in_whitespace s t.
Proof.
  revert t. induction s as [|c s IHs]; intros t.
  - induction t as [|d t IHt]; [constructor |].
    rewrite NormalizedKey_cons. destruct (WHITESPACE_REGEX d) eqn:Hd; [|done].
    intros H. apply diff_ws_right; auto.
  - rewrite NormalizedKey_cons. destruct (WHITESPACE_REGEX c) eqn:Hc.
    + intros H. apply diff_ws_left; auto.
    + induction t as [|d t IHt]; [done |].
      rewrite NormalizedKey_cons. destruct (WHITESPACE_REGEX d) eqn:Hd.
      * intros H. apply diff_ws_right; auto.
      * intros [= -> H]. apply diff_ws_same; auto.
Qed.

Lemma differ_only_in_whitespace_iff s t :
  differ_only_in_whitespace s t ↔ NormalizedKey s = NormalizedKey t.
Proof.
  split; [apply differ_only_in_whitespace_key | apply key_differ_only_in_whitespace].
Qed.

(** ** Documents and their text elements *)

Section documents.
Variable appName : string.
Implicit Types (document : Document) (layer e : nat) (text : string).

Lemma text_layers_from_texts (pre ls : list Layer) :
  Forall2 (λ layer text,
             textItem_contents <$> defined ((pre ++ ls) !! layer) = Normal text)
          (text_layers_from (length pre) ls)
          (textItem_contents <$> filter (λ l, kind l = TEXT) ls).
Proof.
  revert pre. induction ls as [|l ls IH]; intros pre; simpl; [constructor |].
  specialize (IH (pre ++ [l])).
  rewrite length_app, Nat.add_1_r, <-(assoc_L (++)) in IH. simpl in IH.
  rewrite filter_cons. destruct (decide (kind l = TEXT)); [|done].
  constructor; [|done].
  by rewrite list_lookup_middle.
Qed.

Lemma text_frames_texts (pre fs : list TextFrame) :
  Forall2 (λ layer text, contents <$> defined ((pre ++ fs) !! layer) = Normal text)
          (seq (length pre) (length fs)) (contents <$> fs).
Proof.
  revert pre. induction fs as [|f fs IH]; intros pre; simpl; [constructor |].
  specialize (IH (pre ++ [f])).
  rewrite length_app, Nat.add_1_r, <-(assoc_L (++)) in IH. simpl in IH.
  constructor; [|done].
  by rewrite list_lookup_middle.
Qed.

(** Reading the layers returned by [getDocumentTextLayers] gives the
    texts of the elements, in order. *)
Lemma getLayerText_elements document :
  Forall2 (λ layer text, getLayerText appName document layer = Normal text)
          (getDocumentTextLayers appName document) (element_texts appName document).
Proof.
  unfold getLayerText, getDocumentTextLayers, element_texts, switch_app.
  destruct (_ || _).
  - apply (text_frames_texts []).
  - apply (text_layers_from_texts []).
Qed.

Lemma getDocumentTextLayers_length document :
  length (getDocumentTextLayers appName document)
  = length (element_texts appName document).
Proof. eapply Forall2_length, getLayerText_elements. Qed.

Lemma text_layers_from_insert (ls : list Layer) k e layer text :
  text_layers_from k ls !! e = Some layer →
  ∃ l, (k ≤ layer)%nat ∧ ls !! (layer - k)%nat = Some l ∧
    let ls' := <[(layer - k)%nat := {| kind := kind l; textItem_contents := text |}]> ls in
    text_layers_from k ls' = text_layers_from k ls ∧
    textItem_contents <$> filter (λ l, kind l = TEXT) ls'
    = <[e := text]> (textItem_contents <$> filter (λ l, kind l = TEXT) ls).
Proof.
  revert k e. induction ls as [|l ls IH]; intros k e; simpl; [done |].
  destruct (decide (kind l = TEXT)) as [Hl|Hl].
  - destruct e as [|e]; simpl.
    + intros [= <-]. exists l. rewrite Nat.sub_diag. simpl.
      rewrite !filter_cons. simpl. rewrite !decide_True by done. done.
    + intros (l' & Hle & Hl' & Hrefs & Htexts)%IH. exists l'.
      replace (layer - k)%nat with (S (layer - S k)) by lia.
      simpl in Hrefs, Htexts.
      split_and!; [lia | done | |].
      * simpl. by rewrite decide_True, Hrefs by done.
      * simpl insert. rewrite !filter_cons, !decide_True, !fmap_cons by done.
        simpl insert. by rewrite Htexts.
  - intros (l' & Hle & Hl' & Hrefs & Htexts)%IH. exists l'.
    replace (layer - k)%nat with (S (layer - S k)) by lia.
    simpl in Hrefs, Htexts.
    split_and!; [lia | done | |].
    * simpl. by rewrite decide_False, Hrefs by done.
    * simpl insert. by rewrite !filter_cons, !decide_False, Htexts by done.
Qed.

(** Writing through the [e]-th text layer replaces the text of element
    [e] and leaves the enumeration of the text layers as it is. *)
Lemma setLayerText_element document e layer text :
  getDocumentTextLayers appName document !! e = Some layer →
  ∃ document',
    setLayerText appName (Some layer) (Some text) document = Normal document' ∧
    getDocumentTextLayers appName document' = getDocumentTextLayers appName document ∧
    element_texts appName document' = <[e := text]> (element_texts appName document).
Proof.
  unfold setLayerText, getDocumentTextLayers, element_texts, switch_app.
  destruct (_ || _); simpl.
  - intros [-> Hlt]%lookup_seq. simpl in *.
    destruct (lookup_lt_is_Some_2 (textFrames document) e Hlt) as [f Hf].
    rewrite Hf. simpl. eexists. split; [done |]. simpl.
    by rewrite length_insert, list_fmap_insert.
  - intros (l & _ & Hl & Hrefs & Htexts)%(text_layers_from_insert _ _ _ _ text).
    rewrite Nat.sub_0_r in *. rewrite Hl. simpl. eexists. split; [done |]. simpl.
    done.
Qed.

Lemma setLayerText_undefined_layer newText document :
  setLayerText appName None newText document = Throw TypeError.
Proof. done. Qed.
End documents.

(** ** The matcher of [PictureList_Import.jsx] on the pool *)

Section matcher.
Import PictureList_Import.
Implicit Types (pool : list (Z * string)) (key cell : string) (e : Z).
Implicit Types (cells : list string) (rows : list Row).

Lemma findMatchingTextLayer_loop_pool pre post key :
  findMatchingTextLayer_loop ((pre ++ post).*2) ((pre ++ post).*1) key
                             (length pre) (post.*1)
  = match find_claim key post with
    | Some (e, post') => (e, ((pre ++ post').*2, (pre ++ post').*1))
    | None => (-1, ((pre ++ post).*2, (pre ++ post).*1))
    end.
Proof.
  revert pre. induction post as [|[i k] post IH]; intros pre; simpl; [done |].
  rewrite !fmap_app. simpl.
  rewrite list_lookup_middle by (by rewrite length_fmap).
  destruct (decide (k = key)) as [->|Hk].
  - rewrite decide_True by done.
    rewrite <-(length_fmap snd pre) at 1. rewrite delete_middle.
    rewrite <-(length_fmap fst pre) at 1. rewrite delete_middle.
    by rewrite !fmap_app.
  - rewrite decide_False by congruence.
    specialize (IH (pre ++ [(i, k)])).
    rewrite length_app, Nat.add_1_r, <-(assoc_L (++)), !fmap_app in IH.
    simpl in IH. etrans; [exact IH |].
    destruct (find_claim key post) as [[e post']|]; simpl; [|done].
    by rewrite <-(assoc_L (++)), !fmap_app.
Qed.

Lemma findMatchingTextLayer_pool pool key :
  findMatchingTextLayer (pool.*2) (pool.*1) key
  = match find_claim key pool with
    | Some (e, pool') => (e, (pool'.*2, pool'.*1))
    | None => (-1, (pool.*2, pool.*1))
    end.
Proof.
unfold findMatchingTextLayer. rewrite length_fmap.
destruct (decide (0 < length pool)%nat) as [_|Hlen].
- apply (findMatchingTextLayer_loop_pool []).
- by destruct pool; [|simpl in Hlen; lia].
Qed.

Lemma for_each_match_row sourceLang rows cells i pool textLayerMap missingText :
  Forall2 (λ row cell, row !! sourceLang = Some cell) rows cells →
  for_each (match_row sourceLang) i rows
           (pool.*2, pool.*1, textLayerMap, missingText)
  = let '(pool', (claimed, missing)) := claim_rows pool cells in
    Normal (pool'.*2, pool'.*1, textLayerMap ++ claimed, missingText ++ missing).
Proof.
  intros Hcells. revert i pool textLayerMap missingText.
  induction Hcells as [|row cell rows cells Hcell _ IH];
    intros i pool textLayerMap missingText; simpl.
  - by rewrite !app_nil_r.
  - rewrite Hcell. simpl. rewrite findMatchingTextLayer_pool.
    fold (NormalizedKey cell).
    destruct (find_claim (NormalizedKey cell) pool) as [[e pool']|]; simpl.
    + rewrite IH. destruct (claim_rows pool' cells) as [pool'' [claimed missing]].
      destruct (decide (e = -1)); by rewrite <-!(assoc_L (++)).
    + rewrite IH. destruct (claim_rows pool cells) as [pool'' [claimed missing]].
      by rewrite <-!(assoc_L (++)).
Qed.

Lemma for_each_match_row_undefined sourceLang rows i st :
  Exists (λ row, row !! sourceLang = None) rows →
  for_each (match_row sourceLang) i rows st = Throw TypeError.
Proof.
  intros Hex. revert i st.
  induction rows as [|row rows IH]; intros i [[[lts lis] m] miss];
    [by apply Exists_nil in Hex |].
  simpl. destruct (row !! sourceLang) as [cell|] eqn:Hcell; simpl; [|done].
  apply Exists_cons in Hex as [Hex|Hex]; [congruence |].
  destruct (findMatchingTextLayer _ _ _) as [e [lts' lis']]. simpl.
  by apply IH.
Qed.

Lemma pool_of_fst texts :
  (pool_of texts).*1 = Z.of_nat <$> seq 0 (length texts).
Proof. unfold pool_of. by rewrite fmap_imap, (imap_seq_0 _ Z.of_nat). Qed.

Lemma pool_of_snd texts : (pool_of texts).*2 = NormalizedKey <$> texts.
Proof. unfold pool_of. rewrite fmap_imap. apply (imap_const NormalizedKey). Qed.
End matcher.

(** ** Claims on a pool *)

Section pool.
Implicit Types (pool pre post : list (Z * string)) (key cell : string) (e i : Z).
Implicit Types (cells : list string) (r : nat).

Lemma find_claim_Some key pool e pool' :
  find_claim key pool = Some (e, pool') →
  ∃ pre post, pool = pre ++ (e, key) :: post ∧ pool' = pre ++ post ∧ key ∉ pre.*2.
Proof.
  revert pool'. induction pool as [|[i k] pool IH]; intros pool'; simpl; [done |].
  destruct (decide (k = key)) as [->|Hk].
  - intros [= -> ->]. exists [], pool'. split_and!; [done | done | apply not_elem_of_nil].
  - destruct (find_claim key pool) as [[j rest]|]; simpl; [|done].
    intros [= -> <-]. destruct (IH rest eq_refl) as (pre & post & -> & -> & Hpre).
    exists ((i, k) :: pre), post. split_and!; [done | done |].
    simpl. rewrite not_elem_of_cons. auto.
Qed.

Lemma find_claim_None key pool : find_claim key pool = None → key ∉ pool.*2.
Proof.
  induction pool as [|[i k] pool IH]; simpl; [intros _; apply not_elem_of_nil |].
  destruct (decide (k = key)) as [->|Hk]; [done |].
  destruct (find_claim key pool) as [[j rest]|]; simpl; [done |].
  rewrite not_elem_of_cons. auto.
Qed.

(** What a successful claim means on a pool whose indices increase: the
    claimed pair is the first one with the key, and it leaves the pool. *)
Lemma find_claim_sorted key pool e pool' :
  StronglySorted Z.lt pool.*1 →
  find_claim key pool = Some (e, pool') →
  (e, key) ∈ pool ∧ (e ∉ pool'.*1) ∧ StronglySorted Z.lt (pool'.*1) ∧
  (∀ x, x ∈ pool ↔ x = (e, key) ∨ x ∈ pool') ∧
  (∀ i, (i, key) ∈ pool → e ≤ i).
Proof.
  intros Hsorted (pre & post & -> & -> & Hpre)%find_claim_Some.
  rewrite fmap_app, fmap_cons in Hsorted. simpl in Hsorted.
  apply StronglySorted_app in Hsorted as (Hlt & Hs1 & [Hgt Hs2]%StronglySorted_cons).
  rewrite Forall_forall in Hgt.
  split_and!.
  - set_solver.
  - rewrite fmap_app, elem_of_app. intros [Hin|Hin].
    + assert (e < e) by (apply Hlt; set_solver). lia.
    + specialize (Hgt e Hin). lia.
  - rewrite fmap_app. apply StronglySorted_app_2; [|done..].
    intros x1 x2 H1 H2. apply Hlt; set_solver.
  - intros x. rewrite !elem_of_app, elem_of_cons. naive_solver.
  - intros i. rewrite elem_of_app, elem_of_cons. intros [Hin|[[= ->]|Hin]].
    + destruct Hpre. apply (list_elem_of_fmap_2 snd) in Hin. done.
    + done.
    + apply (list_elem_of_fmap_2 fst) in Hin. specialize (Hgt _ Hin). simpl in *. lia.
Qed.

(** An index that [findMatchingTextLayer] returns has left the pool: it
    cannot be returned again. *)
Lemma findMatchingTextLayer_removes (layerTextStrings : list string)
    (layerIndices : list Z) key e layerTextStrings' layerIndices' :
  length layerTextStrings = length layerIndices →
  StronglySorted Z.lt layerIndices →
  PictureList_Import.findMatchingTextLayer layerTextStrings layerIndices key
  = (e, (layerTextStrings', layerIndices')) →
  e ≠ -1 →
  (e ∉ layerIndices') ∧ length layerTextStrings' = length layerIndices'.
Proof.
  intros Hlen Hsorted Hfind He.
  pose (pool := zip layerIndices layerTextStrings).
  assert (pool.*1 = layerIndices) as Hfst by (apply fst_zip; lia).
  assert (pool.*2 = layerTextStrings) as Hsnd by (apply snd_zip; lia).
  rewrite <-Hfst, <-Hsnd, findMatchingTextLayer_pool in Hfind.
  rewrite <-Hfst in Hsorted.
  destruct (find_claim key pool) as [[e' pool']|] eqn:Hclaim.
  - injection Hfind as -> <- <-.
    destruct (find_claim_sorted _ _ _ _ Hsorted Hclaim) as (_ & Hout & _).
    by rewrite !length_fmap.
  - injection Hfind as <- _ _. done.
Qed.

Lemma claim_rows_cons pool cell cells :
  claim_rows pool (cell :: cells)
  = let '(e, pool') := default (-1, pool) (find_claim (NormalizedKey cell) pool) in
    let rest := claim_rows pool' cells in
    (rest.1, (e :: rest.2.1,
              if decide (e = -1) then cell :: rest.2.2 else rest.2.2)).
Proof.
  simpl. destruct (default _ _) as [e pool'].
  by destruct (claim_rows pool' cells) as [pool'' [claimed missing]].
Qed.

Lemma claim_rows_length pool cells :
  length (claim_rows pool cells).2.1 = length cells.
Proof.
  revert pool. induction cells as [|cell cells IH]; intros pool; [done |].
  rewrite claim_rows_cons. destruct (default _ _) as [e pool']. simpl.
  by rewrite IH.
Qed.

Lemma claim_rows_count pool cells :
  (matched_count (claim_rows pool cells).2.1
   + length (claim_rows pool cells).2.2 = length cells)%nat.
Proof.
  revert pool. induction cells as [|cell cells IH]; intros pool; [done |].
  rewrite claim_rows_cons. destruct (default _ _) as [e pool']. simpl.
  specialize (IH pool'). unfold matched_count in *. rewrite filter_cons.
  destruct (decide (e = -1)) as [->|He].
  - rewrite decide_False by (intros ?; done). simpl. lia.
  - rewrite decide_True by done. simpl. lia.
Qed.

(** The unmatched list holds the cells of the rows that got the
    sentinel, in row order. *)
Lemma claim_rows_missing pool cells :
  (claim_rows pool cells).2.2
  = (filter (λ p, p.2 = -1) (zip cells (claim_rows pool cells).2.1)).*1.
Proof.
  revert pool. induction cells as [|cell cells IH]; intros pool; [done |].
  rewrite claim_rows_cons. destruct (default _ _) as [e pool']. simpl.
  rewrite filter_cons. simpl.
  destruct (decide (e = -1)); simpl; by rewrite <-IH.
Qed.

(** A claimed index comes with a pair of the pool that has the key of
    the row. *)
Lemma claim_rows_key pool cells r e :
  (claim_rows pool cells).2.1 !! r = Some e → e ≠ -1 →
  ∃ cell, cells !! r = Some cell ∧ (e, NormalizedKey cell) ∈ pool.
Proof.
  revert pool r. induction cells as [|cell cells IH]; intros pool r; [done |].
  rewrite claim_rows_cons.
  destruct (find_claim (NormalizedKey cell) pool) as [[e0 pool']|] eqn:Hfind; simpl.
  - apply find_claim_Some in Hfind as (pre & post & -> & -> & _).
    destruct r as [|r]; simpl.
    + intros [= ->] _. exists cell. split; [done |]. set_solver.
    + intros H He. destruct (IH _ _ H He) as (c & Hc & Hin).
      exists c. split; [done |]. set_solver.
  - destruct r as [|r]; simpl; [by intros [= <-] |]. apply IH.
Qed.

Lemma claim_rows_injective pool cells r1 r2 e :
  StronglySorted Z.lt pool.*1 →
  (claim_rows pool cells).2.1 !! r1 = Some e →
  (claim_rows pool cells).2.1 !! r2 = Some e →
  e ≠ -1 → r1 = r2.
Proof.
  intros Hsorted H1 H2 He. revert pool r1 r2 Hsorted H1 H2.
  induction cells as [|cell cells IH]; intros pool r1 r2 Hsorted; [done |].
  rewrite claim_rows_cons.
  destruct (find_claim (NormalizedKey cell) pool) as [[e0 pool']|] eqn:Hfind; simpl.
  - destruct (find_claim_sorted _ _ _ _ Hsorted Hfind) as (_ & Hout & Hsorted' & _ & _).
    assert (∀ r, (claim_rows pool' cells).2.1 !! r = Some e → e ≠ e0) as Hne.
    { intros r (c & _ & Hin)%claim_rows_key ->; [|done].
      apply Hout. by apply (list_elem_of_fmap_2 fst) in Hin. }
    destruct r1 as [|r1], r2 as [|r2]; simpl; try done.
    + intros [= ->] H2. by destruct (Hne _ H2).
    + intros H1 [= ->]. by destruct (Hne _ H1).
    + intros H1 H2. f_equal. by apply (IH pool').
  - destruct r1 as [|r1], r2 as [|r2]; simpl; try done; try by intros [= <-].
    + by intros _ [= <-].
    + intros H1 H2. f_equal. by apply (IH pool).
Qed.

(** The claim of row [r] is the first pair of the pool, in index order,
    that has the key of the row and was not claimed by an earlier row;
    it is the sentinel when the earlier rows claimed every such pair. *)
Lemma claim_rows_first_available pool cells r cell e :
  StronglySorted Z.lt pool.*1 → Forall (Z.le 0) pool.*1 →
  cells !! r = Some cell →
  (claim_rows pool cells).2.1 !! r = Some e →
  let earlier := take r (claim_rows pool cells).2.1 in
  (e = -1 ∧ ∀ i, (i, NormalizedKey cell) ∈ pool → i ∈ earlier)
  ∨ (e ≠ -1 ∧ (e, NormalizedKey cell) ∈ pool ∧ (e ∉ earlier) ∧
     ∀ i, (i, NormalizedKey cell) ∈ pool → i < e → i ∈ earlier).
Proof.
  revert pool r. induction cells as [|cell0 cells IH]; intros pool r Hsorted Hpos; [done |].
  assert (∀ i k, (i, k) ∈ pool → 0 ≤ i) as Hpos'.
  { intros i k Hin. rewrite Forall_forall in Hpos. apply Hpos.
    by apply (list_elem_of_fmap_2 fst) in Hin. }
  rewrite claim_rows_cons.
  destruct (find_claim (NormalizedKey cell0) pool) as [[e0 pool']|] eqn:Hfind; simpl.
  - destruct (find_claim_sorted _ _ _ _ Hsorted Hfind)
      as (Hin0 & Hout & Hsorted' & Hpool & Hfirst).
    assert (Forall (Z.le 0) pool'.*1) as Hpos''.
    { rewrite Forall_forall in *. intros i [[i' k] [-> Hin]]%list_elem_of_fmap.
      apply Hpos, (list_elem_of_fmap_2 fst _ (i', k)), Hpool. auto. }
    destruct r as [|r]; simpl.
    + intros [= ->] [= <-]. right. split_and!.
      * apply Hpos' in Hin0. lia.
      * done.
      * apply not_elem_of_nil.
      * intros i Hi Hlt. apply Hfirst in Hi. lia.
    + intros Hcell He.
      destruct (IH pool' r Hsorted' Hpos'' Hcell He) as [[-> Hall]|(Hne & Hin & Hnot & Hbefore)].
      * left. split; [done |]. intros i [[= -> _]|Hi]%Hpool; set_solver.
      * right. split_and!; [done | by apply Hpool; right | |].
        -- rewrite not_elem_of_cons. split; [|done]. intros ->.
           apply Hout. by apply (list_elem_of_fmap_2 fst) in Hin.
        -- intros i [[= -> _]|Hi]%Hpool Hlt; set_solver.
  - apply find_claim_None in Hfind.
    destruct r as [|r]; simpl.
    + intros [= ->] [= <-]. left. split; [done |]. intros i Hi.
      destruct Hfind. by apply (list_elem_of_fmap_2 snd) in Hi.
    + intros Hcell He.
      destruct (IH pool r Hsorted Hpos Hcell He) as [[-> Hall]|(Hne & Hin & Hnot & Hbefore)].
      * left. split; [done |]. set_solver.
      * right. split_and!; [done | done | |].
        -- rewrite not_elem_of_cons. split; [lia | done].
        -- set_solver.
Qed.

Lemma StronglySorted_seq k n : StronglySorted lt (seq k n).
Proof.
  revert k. induction n as [|n IH]; intros k; simpl; constructor; [done |].
  apply Forall_forall. intros j [? _]%elem_of_seq. lia.
Qed.

Lemma pool_of_sorted texts : StronglySorted Z.lt (pool_of texts).*1.
Proof.
  rewrite pool_of_fst. apply (StronglySorted_fmap _ lt); [|apply StronglySorted_seq].
  intros ???. lia.
Qed.

Lemma pool_of_nonneg texts : Forall (Z.le 0) (pool_of texts).*1.
Proof. rewrite pool_of_fst, Forall_fmap. apply Forall_forall. intros ??. simpl. lia. Qed.

Lemma elem_of_pool_of texts i key :
  (i, key) ∈ pool_of texts ↔
  ∃ (n : nat) text, i = Z.of_nat n ∧ texts !! n = Some text ∧ key = NormalizedKey text.
Proof.
  unfold pool_of. rewrite elem_of_lookup_imap. naive_solver.
Qed.
End pool.

(** ** [mapTextLayers] as a function of the element texts *)

Section mapTextLayers.
Import PictureList_Import.
Implicit Types (h : Host) (ccFile : File) (rows : list Row) (cells : list string).
Implicit Types (sourceLang : string) (textLayerMap : list Z) (missingText : list string).

Lemma pool_entry_loop appName sourceDocument textLayers texts i layerIndices layerTextStrings :
  Forall2 (λ layer text, getLayerText appName sourceDocument layer = Normal text)
          textLayers texts →
  for_each (pool_entry appName sourceDocument) i textLayers
           (layerIndices, layerTextStrings)
  = Normal (layerIndices ++ (Z.of_nat <$> seq i (length texts)),
            layerTextStrings ++ (NormalizedKey <$> texts)).
Proof.
  intros Htexts. revert i layerIndices layerTextStrings.
  induction Htexts as [|layer text textLayers texts Htext _ IH];
    intros i layerIndices layerTextStrings; simpl.
  - by rewrite !app_nil_r.
  - rewrite Htext. simpl. rewrite IH. by rewrite <-!(assoc_L (++)).
Qed.

Lemma collect_pool_elements appName sourceDocument :
  let pool := pool_of (element_texts appName sourceDocument) in
  collect_pool appName sourceDocument (getDocumentTextLayers appName sourceDocument)
  = Normal (pool.*1, pool.*2).
Proof.
  simpl. unfold collect_pool.
  rewrite (pool_entry_loop _ _ _ _ _ _ _ (getLayerText_elements _ _)).
  by rewrite pool_of_fst, pool_of_snd.
Qed.

(** The run of [mapTextLayers_match]: the host is left as it was, and
    the result is the one of the loop over the rows on the pool of the
    element texts of the source document. *)
Lemma mapTextLayers_match_run ccFile rows sourceLang h :
  mapTextLayers_match ccFile rows sourceLang h
  = (h, match files h !! fullName ccFile with
        | None => Throw IOError
        | Some sourceDocument =>
            let pool := pool_of (element_texts (app_name h) sourceDocument) in
            match_rows rows sourceLang (pool.*2) (pool.*1)
        end).
Proof.
  unfold mapTextLayers_match, app_open, get_app_name, Document_close, lift.
  unfold mbind, Script_bind.
  destruct (files h !! fullName ccFile) as [sourceDocument|]; [|done].
  by rewrite collect_pool_elements.
Qed.

Lemma source_cells_dec rows sourceLang :
  (∃ cells, Forall2 (λ row cell, row !! sourceLang = Some cell) rows cells)
  ∨ Exists (λ row, row !! sourceLang = None) rows.
Proof.
  induction rows as [|row rows [[cells IH]|IH]].
  - left. exists []. constructor.
  - destruct (row !! sourceLang) as [cell|] eqn:Hcell.
    + left. exists (cell :: cells). by constructor.
    + right. by constructor.
  - right. by constructor 2.
Qed.

Lemma match_rows_claims rows cells sourceLang (pool : list (Z * string)) :
  Forall2 (λ row cell, row !! sourceLang = Some cell) rows cells →
  match_rows rows sourceLang (pool.*2) (pool.*1) = Normal (claim_rows pool cells).2.
Proof.
  intros Hcells. unfold match_rows.
  rewrite (for_each_match_row _ _ _ _ _ _ _ Hcells).
  by destruct (claim_rows pool cells) as [pool' [claimed missing]].
Qed.

Lemma match_rows_undefined rows sourceLang layerTextStrings layerIndices :
  Exists (λ row, row !! sourceLang = None) rows →
  match_rows rows sourceLang layerTextStrings layerIndices = Throw TypeError.
Proof.
  intros Hex. unfold match_rows. by rewrite for_each_match_row_undefined.
Qed.

(** When [mapTextLayers_match] returns, the source document exists,
    every row has a source cell, and the two arrays are the claims of
    the cells on the pool of the element texts. *)
Lemma mapTextLayers_match_Normal ccFile rows sourceLang h textLayerMap missingText :
  (mapTextLayers_match ccFile rows sourceLang h).2 = Normal (textLayerMap, missingText) →
  ∃ sourceDocument cells,
    files h !! fullName ccFile = Some sourceDocument ∧
    Forall2 (λ row cell, row !! sourceLang = Some cell) rows cells ∧
    (claim_rows (pool_of (element_texts (app_name h) sourceDocument)) cells).2
    = (textLayerMap, missingText).
Proof.
  rewrite mapTextLayers_match_run. simpl.
  destruct (files h !! fullName ccFile) as [sourceDocument|]; [|done].
  destruct (source_cells_dec rows sourceLang) as [[cells Hcells]|Hex].
  - rewrite (match_rows_claims _ _ _ _ Hcells). intros [= Heq]. eauto.
  - by rewrite match_rows_undefined.
Qed.

Lemma mapTextLayers_match_total ccFile rows sourceLang h :
  is_Some (files h !! fullName ccFile) →
  Forall (λ row, is_Some (row !! sourceLang)) rows →
  ∃ textLayerMap missingText,
    mapTextLayers_match ccFile rows sourceLang h = (h, Normal (textLayerMap, missingText)).
Proof.
  intros [sourceDocument Hdoc] Hrows. rewrite mapTextLayers_match_run, Hdoc.
  destruct (source_cells_dec rows sourceLang) as [[cells Hcells]|Hex].
  - simpl. rewrite (match_rows_claims _ _ _ _ Hcells).
    destruct (claim_rows _ cells) as [pool' [claimed missing]]. simpl. eauto.
  - apply Exists_exists in Hex as (row & Hin & Hnone).
    rewrite Forall_forall in Hrows. destruct (Hrows row Hin) as [cell Hcell]. congruence.
Qed.

(** The map that [mapTextLayers] returns is the one of
    [mapTextLayers_match]. *)
Lemma mapTextLayers_Some ccFile rows sourceLang h textLayerMap :
  (mapTextLayers ccFile rows sourceLang h).2 = Normal (Some textLayerMap) →
  ∃ missingText,
    (mapTextLayers_match ccFile rows sourceLang h).2 = Normal (textLayerMap, missingText).
Proof.
  unfold mapTextLayers, mbind, Script_bind.
  destruct (mapTextLayers_match ccFile rows sourceLang h)
    as [h' [[map missing]|exn]]; simpl; [|done].
  destruct (decide _); simpl.
  - unfold confirm, mbind, Script_bind. destruct (confirm_answer _ _); simpl; [|done].
    intros [= ->]. eauto.
  - intros [= ->]. eauto.
Qed.

Lemma source_cell_Forall2 rows cells sourceLang r cell :
  Forall2 (λ row cell, row !! sourceLang = Some cell) rows cells →
  source_cell rows sourceLang r = Some cell ↔ cells !! r = Some cell.
Proof.
  intros Hcells. unfold source_cell. revert r.
  induction Hcells as [|row c rows cells Hc _ IH]; intros r; [done |].
  destruct r as [|r]; simpl; [by rewrite Hc | apply IH].
Qed.
End mapTextLayers.

(** ** The layer map *)

Section layer_map.
Import PictureList_Import.
Implicit Types (h : Host) (ccFile : File) (rows : list Row) (cells : list string).
Implicit Types (sourceLang cell : string) (textLayerMap : list Z) (e : Z) (r n : nat).

Lemma has_key_pool texts cell n :
  has_key texts cell n ↔ (Z.of_nat n, NormalizedKey cell) ∈ pool_of texts.
Proof.
  unfold has_key. rewrite elem_of_pool_of. split.
  - intros (text & Htext & Hkey). by exists n, text.
  - intros (n' & text & Hn & Htext & Hkey). apply (inj Z.of_nat) in Hn as ->.
    by exists text.
Qed.

Lemma claimed_before_take textLayerMap r n :
  claimed_before textLayerMap r n ↔ Z.of_nat n ∈ take r textLayerMap.
Proof. unfold claimed_before. rewrite elem_of_take. naive_solver. Qed.

Context (h : Host) (ccFile : File) (sourceDocument : Document).
Context (rows : list Row) (sourceLang : string).
Context (textLayerMap : list Z) (missingText : list string).
Hypothesis Hdoc : files h !! fullName ccFile = Some sourceDocument.
Hypothesis Hrun :
  (mapTextLayers_match ccFile rows sourceLang h).2 = Normal (textLayerMap, missingText).

Let texts := element_texts (app_name h) sourceDocument.

Lemma layer_map_claims :
  ∃ cells,
    Forall2 (λ row cell, row !! sourceLang = Some cell) rows cells ∧
    (claim_rows (pool_of texts) cells).2 = (textLayerMap, missingText).
Proof.
  destruct (mapTextLayers_match_Normal _ _ _ _ _ _ Hrun) as (d & cells & Hd & Hcells & Heq).
  rewrite Hdoc in Hd. injection Hd as <-. eauto.
Qed.

Lemma layer_map_length : length textLayerMap = length rows.
Proof.
  destruct layer_map_claims as (cells & Hcells & Heq).
  apply (f_equal fst) in Heq. simpl in Heq. rewrite <-Heq, claim_rows_length.
  symmetry. by eapply Forall2_length.
Qed.

Lemma layer_map_count :
  (matched_count textLayerMap + length missingText = length rows)%nat.
Proof.
  destruct layer_map_claims as (cells & Hcells & Heq).
  pose proof (claim_rows_count (pool_of texts) cells) as Hcount.
  rewrite Heq in Hcount. simpl in Hcount. rewrite Hcount.
  symmetry. by eapply Forall2_length.
Qed.

Lemma layer_map_injective r1 r2 e :
  textLayerMap !! r1 = Some e → textLayerMap !! r2 = Some e → e ≠ -1 → r1 = r2.
Proof.
  destruct layer_map_claims as (cells & Hcells & Heq).
  apply (f_equal fst) in Heq. simpl in Heq. rewrite <-Heq.
  apply claim_rows_injective, pool_of_sorted.
Qed.

(** A row is mapped only to an element that has its key. *)
Lemma layer_map_has_key r n :
  textLayerMap !! r = Some (Z.of_nat n) →
  ∃ cell, source_cell rows sourceLang r = Some cell ∧ has_key texts cell n.
Proof.
  destruct layer_map_claims as (cells & Hcells & Heq).
  apply (f_equal fst) in Heq. simpl in Heq. rewrite <-Heq.
  intros (cell & Hcell & Hin)%claim_rows_key; [|lia].
  exists cell. by rewrite (source_cell_Forall2 _ _ _ _ _ Hcells), has_key_pool.
Qed.

Lemma layer_map_first_available r cell e :
  source_cell rows sourceLang r = Some cell →
  textLayerMap !! r = Some e →
  first_available texts textLayerMap r cell e.
Proof.
  destruct layer_map_claims as (cells & Hcells & Heq).
  apply (f_equal fst) in Heq. simpl in Heq.
  rewrite (source_cell_Forall2 _ _ _ _ _ Hcells). intros Hcell He.
  rewrite <-Heq in He.
  pose proof (claim_rows_first_available _ _ _ _ _
                (pool_of_sorted texts) (pool_of_nonneg texts) Hcell He) as Hfirst.
  simpl in Hfirst. rewrite Heq in Hfirst. unfold first_available.
  destruct Hfirst as [[-> Hall]|(Hne & Hin & Hnot & Hbefore)].
  - left. split; [done |]. intros n Hn.
    apply claimed_before_take, Hall. by apply has_key_pool.
  - right. pose proof Hin as (n & text & -> & Htext & Hkey)%elem_of_pool_of.
    exists n. split_and!; [done | by exists text | by rewrite claimed_before_take |].
    intros n' Hlt Hn'. apply claimed_before_take, Hbefore; [|lia].
    by apply has_key_pool.
Qed.

Lemma source_cell_lookup r cell :
  source_cell rows sourceLang r = Some cell → is_Some (textLayerMap !! r).
Proof.
  unfold source_cell. intros Hcell. apply lookup_lt_is_Some. rewrite layer_map_length.
  destruct (rows !! r) as [row|] eqn:Hrow; [|done]. by eapply lookup_lt_Some.
Qed.

(** The first row with a key gets the first element with that key. *)
Lemma layer_map_earliest r cell e :
  source_cell rows sourceLang r = Some cell →
  textLayerMap !! r = Some e →
  (∀ r' cell', (r' < r)%nat → source_cell rows sourceLang r' = Some cell' →
               NormalizedKey cell' ≠ NormalizedKey cell) →
  (e = -1 ∧ ∀ n, ¬ has_key texts cell n)
  ∨ (∃ n, e = Z.of_nat n ∧ has_key texts cell n ∧
          ∀ n', (n' < n)%nat → ¬ has_key texts cell n').
Proof.
  intros Hcell He Hearliest.
  assert (∀ n, has_key texts cell n → ¬ claimed_before textLayerMap r n) as Hfree.
  { intros n (text & Htext & Hkey) (r' & Hlt & Hr').
    destruct (layer_map_has_key _ _ Hr') as (cell' & Hcell' & text' & Htext' & Hkey').
    apply (Hearliest r' cell' Hlt Hcell'). congruence. }
  destruct (layer_map_first_available _ _ _ Hcell He)
    as [[-> Hall]|(n & -> & Hn & Hnot & Hbefore)].
  - left. split; [done |]. intros n Hn. by apply (Hfree n Hn), Hall.
  - right. exists n. split_and!; [done | done |].
    intros n' Hlt Hn'. by apply (Hfree n' Hn'), Hbefore.
Qed.
End layer_map.

(** ** The matcher: properties of the layer map *)

Import PictureList_Import.

(** C1.  The layer map that the matcher returns is injective outside the
    sentinel: two distinct rows are never mapped to the same element. *)
Theorem mapTextLayers_injective (h : Host) ccFile rows sourceLang
    (textLayerMap : list Z) (r1 r2 : nat) (e1 e2 : Z) :
  (mapTextLayers ccFile rows sourceLang h).2 = Normal (Some textLayerMap) →
  r1 ≠ r2 →
  textLayerMap !! r1 = Some e1 →
  textLayerMap !! r2 = Some e2 →
  e1 ≠ -1 →
  e1 ≠ e2.
Proof.
  intros [missingText Hrun]%mapTextLayers_Some Hne H1 H2 He1 <-.
  destruct (mapTextLayers_match_Normal _ _ _ _ _ _ Hrun) as (d & _ & Hd & _).
  apply Hne. by eapply (layer_map_injective _ _ _ _ _ _ _ Hd Hrun).
Qed.

Lemma mapTextLayers_injective_witness : (0 : Z) ≠ 1.
Proof.
  apply (mapTextLayers_injective (host_with ADOBE_PHOTOSHOP poster greeting_psd)
           poster greeting_rows "en" [0; 1] 0 1 0 1).
  - vm_compute. reflexivity.
  - lia.
  - reflexivity.
  - reflexivity.
  - lia.
Defined.

(** C4.  The number of entries of the layer map that are not the sentinel
    plus the number of unmatched rows is the number of rows, and the layer
    map has one entry per row; the matcher returns the two arrays whenever
    the source document opens and every row has a source cell. *)
Theorem mapTextLayers_match_complete (h : Host) ccFile rows sourceLang :
  (∀ textLayerMap missingText,
      (mapTextLayers_match ccFile rows sourceLang h).2
      = Normal (textLayerMap, missingText) →
      (matched_count textLayerMap + length missingText = length rows)%nat
      ∧ length textLayerMap = length rows)
  ∧ (∀ textLayerMap,
      (mapTextLayers ccFile rows sourceLang h).2 = Normal (Some textLayerMap) →
      length textLayerMap = length rows)
  ∧ (is_Some (files h !! fullName ccFile) →
     Forall (λ row : Row, is_Some (row !! sourceLang)) rows →
     ∃ textLayerMap missingText,
       mapTextLayers_match ccFile rows sourceLang h
       = (h, Normal (textLayerMap, missingText))).
Proof.
  split_and!.
  - intros textLayerMap missingText Hrun.
    destruct (mapTextLayers_match_Normal _ _ _ _ _ _ Hrun) as (d & _ & Hd & _).
    split.
    + by eapply layer_map_count.
    + by eapply layer_map_length.
  - intros textLayerMap [missingText Hrun]%mapTextLayers_Some.
    destruct (mapTextLayers_match_Normal _ _ _ _ _ _ Hrun) as (d & _ & Hd & _).
    by eapply layer_map_length.
  - apply mapTextLayers_match_total.
Qed.

Lemma mapTextLayers_match_complete_witness :
  (matched_count [0; -1]%Z + length ["Hello"] = length hello_twice)%nat
  ∧ length [0; -1] = length hello_twice.
Proof.
  destruct (mapTextLayers_match_complete
              (host_with ADOBE_PHOTOSHOP poster hello_psd) poster hello_twice "en")
    as (Hcount & _ & _).
  apply (Hcount [0; -1] ["Hello"]). vm_compute. reflexivity.
Defined.

(** C6.  The matcher is a function of the texts of the elements, in
    order, of the rows and of the source language: two runs that agree on
    these return the same layer map and the same unmatched list, whatever
    else differs between the two hosts; and [mapTextLayers] returns the
    same value when the user gives the same answers. *)
Theorem mapTextLayers_deterministic (h1 h2 : Host) ccFile1 ccFile2 rows sourceLang :
  element_texts (app_name h1) <$> files h1 !! fullName ccFile1
  = element_texts (app_name h2) <$> files h2 !! fullName ccFile2 →
  (mapTextLayers_match ccFile1 rows sourceLang h1).2
  = (mapTextLayers_match ccFile2 rows sourceLang h2).2
  ∧ ((∀ message, confirm_answer h1 message = confirm_answer h2 message) →
     (mapTextLayers ccFile1 rows sourceLang h1).2
     = (mapTextLayers ccFile2 rows sourceLang h2).2).
Proof.
  intros Htexts.
  assert ((mapTextLayers_match ccFile1 rows sourceLang h1).2
          = (mapTextLayers_match ccFile2 rows sourceLang h2).2) as Hmatch.
  { rewrite !mapTextLayers_match_run. simpl.
    destruct (files h1 !! fullName ccFile1) as [document1|],
             (files h2 !! fullName ccFile2) as [document2|];
      simpl in Htexts; try done.
    injection Htexts as ->. done. }
  split; [done |]. intros Hconfirm.
  pose proof (mapTextLayers_match_run ccFile1 rows sourceLang h1) as Hh1.
  pose proof (mapTextLayers_match_run ccFile2 rows sourceLang h2) as Hh2.
  unfold mapTextLayers, mbind, Script_bind.
  destruct (mapTextLayers_match ccFile1 rows sourceLang h1) as [h1' result1].
  destruct (mapTextLayers_match ccFile2 rows sourceLang h2) as [h2' result2].
  injection Hh1 as -> _. injection Hh2 as -> _. simpl in Hmatch. subst result2.
  destruct result1 as [[textLayerMap missingText]|exn]; [|done].
  destruct (decide _); [|done].
  unfold confirm. rewrite Hconfirm. by destruct (confirm_answer h2 _).
Qed.

Lemma mapTextLayers_deterministic_witness :
  (mapTextLayers_match poster greeting_rows "en"
     (host_with ADOBE_PHOTOSHOP poster greeting_psd)).2
  = (mapTextLayers_match flyer greeting_rows "en"
       (host_with ADOBE_INDESIGN flyer greeting_indd)).2.
Proof.
  apply (mapTextLayers_deterministic
           (host_with ADOBE_PHOTOSHOP poster greeting_psd)
           (host_with ADOBE_INDESIGN flyer greeting_indd)
           poster flyer greeting_rows "en").
  reflexivity.
Defined.

(** C2.  Rows with the same normalized source text are served in row
    order.  Every row gets the first element with its key that no earlier
    row claimed, or the sentinel when the earlier rows claimed all of them;
    the earliest row with a key gets the first element with that key; and
    when exactly one element has the key, the earliest row with the key is
    mapped to it and every later row with the key is unmatched. *)
Theorem duplicate_rows_in_row_order (h : Host) ccFile (sourceDocument : Document)
    rows sourceLang (textLayerMap : list Z) (missingText : list string) :
  files h !! fullName ccFile = Some sourceDocument →
  (mapTextLayers_match ccFile rows sourceLang h).2 = Normal (textLayerMap, missingText) →
  let texts := element_texts (app_name h) sourceDocument in
  let earliest r cell :=
    ∀ r' cell', (r' < r)%nat → source_cell rows sourceLang r' = Some cell' →
                NormalizedKey cell' ≠ NormalizedKey cell in
  (∀ r cell e,
      source_cell rows sourceLang r = Some cell →
      textLayerMap !! r = Some e →
      first_available texts textLayerMap r cell e)
  ∧ (∀ r cell e,
      source_cell rows sourceLang r = Some cell →
      textLayerMap !! r = Some e →
      earliest r cell →
      (e = -1 ∧ ∀ n, ¬ has_key texts cell n)
      ∨ (∃ n, e = Z.of_nat n ∧ has_key texts cell n ∧
              ∀ n', (n' < n)%nat → ¬ has_key texts cell n'))
  ∧ (∀ r1 r2 cell1 cell2 n,
      (r1 < r2)%nat →
      source_cell rows sourceLang r1 = Some cell1 →
      source_cell rows sourceLang r2 = Some cell2 →
      NormalizedKey cell1 = NormalizedKey cell2 →
      earliest r1 cell1 →
      has_key texts cell1 n →
      (∀ n', has_key texts cell1 n' → n' = n) →
      textLayerMap !! r1 = Some (Z.of_nat n) ∧ textLayerMap !! r2 = Some (-1)).
Proof.
  intros Hdoc Hrun texts earliest. split_and!.
  - intros r cell e. by apply (layer_map_first_available _ _ _ _ _ _ _ Hdoc Hrun).
  - intros r cell e. by apply (layer_map_earliest _ _ _ _ _ _ _ Hdoc Hrun).
  - intros r1 r2 cell1 cell2 n Hlt Hcell1 Hcell2 Hkey Hearliest Hn Honly.
    destruct (source_cell_lookup _ _ _ _ _ _ _ Hdoc Hrun _ _ Hcell1) as [e1 He1].
    destruct (source_cell_lookup _ _ _ _ _ _ _ Hdoc Hrun _ _ Hcell2) as [e2 He2].
    assert (e1 = Z.of_nat n) as ->.
    { destruct (layer_map_earliest _ _ _ _ _ _ _ Hdoc Hrun _ _ _ Hcell1 He1 Hearliest)
        as [[_ Hnone]|(n1 & -> & Hn1 & _)].
      - by destruct (Hnone n).
      - by rewrite (Honly n1 Hn1). }
    split; [done |].
    destruct (layer_map_first_available _ _ _ _ _ _ _ Hdoc Hrun _ _ _ Hcell2 He2)
      as [[-> _]|(n2 & -> & Hn2 & Hfree & _)]; [done |].
    destruct Hfree. exists r1. split; [done |].
    rewrite He1. do 2 f_equal. symmetry. apply Honly.
    destruct Hn2 as (text & Htext & Hkey2). exists text. split; [done | congruence].
Qed.

Lemma duplicate_rows_in_row_order_witness :
  ([0; -1] : list Z) !! 0%nat = Some (Z.of_nat 0) ∧ ([0; -1] : list Z) !! 1%nat = Some (-1).
Proof.
  pose (h := host_with ADOBE_PHOTOSHOP poster hello_psd).
  assert (files h !! fullName poster = Some hello_psd) as Hdoc by reflexivity.
  assert ((mapTextLayers_match poster hello_twice "en" h).2 = Normal ([0; -1], ["Hello"]))
    as Hrun by (vm_compute; reflexivity).
  destruct (duplicate_rows_in_row_order h poster hello_psd hello_twice "en"
              [0; -1] ["Hello"] Hdoc Hrun) as (_ & _ & Hscenario).
  apply (Hscenario 0%nat 1%nat "Hello" "Hello" 0%nat).
  - lia.
  - reflexivity.
  - reflexivity.
  - reflexivity.
  - intros r' cell' Hlt. lia.
  - exists "Hello". split; reflexivity.
  - intros [|n'] (text & Htext & _); [reflexivity | discriminate Htext].
Defined.

(** C3.  Matching compares the texts without their whitespace.  Two texts
    have the same normalized key exactly when they differ only in
    whitespace; an element and a row, alone, are matched exactly when their
    keys are equal; and in any run a row is mapped only to an element whose
    text differs from the source cell of the row in whitespace only. *)
Theorem whitespace_invariance :
  (∀ text cell,
      differ_only_in_whitespace text cell ↔ NormalizedKey text = NormalizedKey cell)
  ∧ (∀ (h : Host) ccFile (sourceDocument : Document) (row : Row) sourceLang text cell,
      files h !! fullName ccFile = Some sourceDocument →
      element_texts (app_name h) sourceDocument = [text] →
      row !! sourceLang = Some cell →
      (mapTextLayers_match ccFile [row] sourceLang h).2
      = Normal (if decide (NormalizedKey text = NormalizedKey cell)
                then ([0], []) else ([-1], [cell])))
  ∧ (∀ (h : Host) ccFile (sourceDocument : Document) rows sourceLang
       (textLayerMap : list Z) (missingText : list string) (r n : nat),
      files h !! fullName ccFile = Some sourceDocument →
      (mapTextLayers_match ccFile rows sourceLang h).2
      = Normal (textLayerMap, missingText) →
      textLayerMap !! r = Some (Z.of_nat n) →
      ∃ text cell,
        element_texts (app_name h) sourceDocument !! n = Some text ∧
        source_cell rows sourceLang r = Some cell ∧
        differ_only_in_whitespace text cell).
Proof.
  split_and!.
  - apply differ_only_in_whitespace_iff.
  - intros h ccFile sourceDocument row sourceLang text cell Hdoc Htexts Hcell.
    rewrite mapTextLayers_match_run, Hdoc. simpl. rewrite Htexts.
    rewrite (match_rows_claims [row] [cell]) by (by repeat constructor).
    simpl. by destruct (decide (NormalizedKey text = NormalizedKey cell)).
  - intros h ccFile sourceDocument rows sourceLang textLayerMap missingText r n
      Hdoc Hrun Hr.
    destruct (layer_map_has_key _ _ _ _ _ _ _ Hdoc Hrun _ _ Hr)
      as (cell & Hcell & text & Htext & Hkey).
    exists text, cell. by rewrite differ_only_in_whitespace_iff.
Qed.

Lemma whitespace_invariance_witness :
  (mapTextLayers_match poster [en_fr "He llo" "Bonjour"] "en"
     (host_with ADOBE_PHOTOSHOP poster hello_psd)).2
  = Normal ([0], [])
  ∧ (mapTextLayers_match poster [en_fr "hello" "Bonjour"] "en"
       (host_with ADOBE_PHOTOSHOP poster hello_psd)).2
    = Normal ([-1], ["hello"]).
Proof.
  destruct whitespace_invariance as (_ & Hone & _).
  split.
  - apply (Hone (host_with ADOBE_PHOTOSHOP poster hello_psd) poster hello_psd
             (en_fr "He llo" "Bonjour") "en" "Hello" "He llo"); reflexivity.
  - apply (Hone (host_with ADOBE_PHOTOSHOP poster hello_psd) poster hello_psd
             (en_fr "hello" "Bonjour") "en" "Hello" "hello"); reflexivity.
Defined.

(** ** The variant generator *)

Section write_row.
Variables (appName currentLang : string) (textLayerMap : list Z).
Implicit Types (targetDoc : Document) (row : Row) (rows : list Row) (n r : nat).

Lemma setLayerText_undefined_text layer targetDoc :
  ∃ exn, setLayerText appName (Some layer) None targetDoc = Throw exn.
Proof.
  unfold setLayerText, switch_app. simpl.
  destruct (_ || _).
  - destruct (textFrames targetDoc !! layer); simpl; eauto.
  - destruct (layers targetDoc !! layer); simpl; eauto.
Qed.

Lemma write_row_sentinel textLayers dataRow row targetDoc :
  textLayerMap !! dataRow = Some (-1) →
  write_row appName textLayers textLayerMap currentLang dataRow row targetDoc
  = Normal targetDoc.
Proof. unfold write_row. by intros ->. Qed.

(** A turn of the loop that does not throw either skips the row, whose
    entry is the sentinel, or writes the cell of the row into the element
    that the entry names. *)
Lemma write_row_Normal dataRow row targetDoc targetDoc' :
  write_row appName (getDocumentTextLayers appName targetDoc) textLayerMap
            currentLang dataRow row targetDoc = Normal targetDoc' →
  getDocumentTextLayers appName targetDoc' = getDocumentTextLayers appName targetDoc ∧
  ((textLayerMap !! dataRow = Some (-1) ∧ targetDoc' = targetDoc)
   ∨ (∃ n text,
        textLayerMap !! dataRow = Some (Z.of_nat n) ∧
        row !! currentLang = Some text ∧
        (n < length (element_texts appName targetDoc))%nat ∧
        element_texts appName targetDoc'
        = <[n := text]> (element_texts appName targetDoc))).
Proof.
  unfold write_row.
  destruct (textLayerMap !! dataRow) as [e|]; [|done].
  destruct (decide (e = -1)) as [->|He].
  { intros [= <-]. split; [done |]. by left. }
  unfold array_get. destruct (decide (0 ≤ e)) as [Hpos|]; [|done].
  destruct (getDocumentTextLayers appName targetDoc !! Z.to_nat e)
    as [layer|] eqn:Hlayer; [|done].
  destruct (row !! currentLang) as [text|].
  - destruct (setLayerText_element appName targetDoc _ _ text Hlayer)
      as (document' & -> & Hrefs & Htexts).
    intros [= <-]. split; [done |]. right.
    exists (Z.to_nat e), text. rewrite Z2Nat.id by done. split_and!; [done..| |done].
    rewrite <-getDocumentTextLayers_length. by eapply lookup_lt_Some.
  - destruct (setLayerText_undefined_text layer targetDoc) as [exn ->]. done.
Qed.

Lemma write_rows_Normal textLayers rows dataRow targetDoc targetDoc' :
  textLayers = getDocumentTextLayers appName targetDoc →
  for_each (write_row appName textLayers textLayerMap currentLang)
           dataRow rows targetDoc = Normal targetDoc' →
  getDocumentTextLayers appName targetDoc' = textLayers ∧
  ∀ n, (∀ r, (dataRow ≤ r < dataRow + length rows)%nat →
             textLayerMap !! r ≠ Some (Z.of_nat n)) →
       element_texts appName targetDoc' !! n = element_texts appName targetDoc !! n.
Proof.
  revert dataRow targetDoc.
  induction rows as [|row rows IH]; intros dataRow targetDoc Hrefs; simpl.
  - intros [= <-]. done.
  - destruct (write_row _ _ _ _ _ _ targetDoc) as [targetDoc1|] eqn:Hrow; [|done].
    simpl. intros Hrest. rewrite Hrefs in Hrow.
    apply write_row_Normal in Hrow as [Hrefs1 Hrow]. rewrite <-Hrefs in Hrefs1.
    destruct (IH _ _ (eq_sym Hrefs1) Hrest) as [Hrefs' Hframe].
    split; [done |]. intros n Hn. rewrite Hframe by (intros r Hr; apply Hn; lia).
    destruct Hrow as [[_ ->]|(n' & text & Hentry & _ & _ & ->)]; [done |].
    apply list_lookup_insert_ne. intros ->. apply (Hn dataRow); [lia | done].
Qed.

Lemma write_rows_sentinels textLayers rows dataRow targetDoc :
  (∀ r, (dataRow ≤ r < dataRow + length rows)%nat → textLayerMap !! r = Some (-1)) →
  for_each (write_row appName textLayers textLayerMap currentLang)
           dataRow rows targetDoc = Normal targetDoc.
Proof.
  revert dataRow. induction rows as [|row rows IH]; intros dataRow Hall; simpl; [done |].
  rewrite write_row_sentinel by (apply Hall; simpl; lia). simpl.
  apply IH. intros r Hr. apply Hall. simpl. lia.
Qed.
End write_row.

Section generate_variant.
Implicit Types (h : Host) (ccFile : File) (rows : list Row) (textLayerMap : list Z).

(** The path of the variant for a language. *)
Let target_path ccFile currentLang : string :=
  path ccFile +:+ "/" +:+ generateTargetFilename (name ccFile) currentLang.

(** The run of one turn of the loop over the languages when the template
    exists: the template is copied, the rows are written into the copy in
    memory, and the copy is saved unless a row throws. *)
Lemma generate_variant_run h ccFile template rows textLayerMap langIndex currentLang :
  files h !! fullName ccFile = Some template →
  generate_variant ccFile rows textLayerMap langIndex currentLang () h
  = let h1 := set_files (<[target_path ccFile currentLang := template]> (files h)) h in
    match for_each (write_row (app_name h)
                      (getDocumentTextLayers (app_name h) template)
                      textLayerMap currentLang) 0%nat rows template with
    | Normal variant =>
        (set_files (<[target_path ccFile currentLang := variant]> (files h1)) h1,
         Normal ())
    | Throw exn => (h1, Throw exn)
    end.
Proof.
  intros Htemplate.
  unfold generate_variant, File_copy, app_open, get_app_name, Document_save,
    Document_close, lift, mbind, Script_bind.
  rewrite Htemplate. simpl. rewrite lookup_insert_eq.
  by destruct (for_each _ _ _ _).
Qed.

(** Whatever happens, one turn touches no file but the variant of its
    language, and leaves the application and the user as they are. *)
Lemma generate_variant_frame h ccFile rows textLayerMap langIndex currentLang :
  let h' := (generate_variant ccFile rows textLayerMap langIndex currentLang () h).1 in
  app_name h' = app_name h ∧ confirm_answer h' = confirm_answer h ∧
  ∀ file, file ≠ target_path ccFile currentLang → files h' !! file = files h !! file.
Proof.
  unfold generate_variant, File_copy, app_open, get_app_name, Document_save,
    Document_close, lift, mbind, Script_bind.
  destruct (files h !! fullName ccFile) as [template|]; simpl.
  - rewrite lookup_insert_eq. destruct (for_each _ _ _ _); simpl;
      (split_and!; [done | done |]); intros file Hfile;
      by rewrite ?lookup_insert_ne by done.
  - destruct (files h !! _) as [stale|]; simpl; [|done].
    destruct (for_each _ _ _ _); simpl; [|done].
    split_and!; [done | done |]. intros file Hfile. by rewrite lookup_insert_ne.
Qed.

Lemma generateLocalizedFiles_loop_frame h ccFile rows textLayerMap langIndex langs :
  let h' := (for_each (generate_variant ccFile rows textLayerMap) langIndex langs () h).1 in
  app_name h' = app_name h ∧ confirm_answer h' = confirm_answer h ∧
  ∀ file, (∀ lang, lang ∈ langs → file ≠ target_path ccFile lang) →
          files h' !! file = files h !! file.
Proof.
  revert h langIndex. induction langs as [|lang langs IH]; intros h langIndex; simpl.
  - done.
  - unfold mbind, Script_bind.
    pose proof (generate_variant_frame h ccFile rows textLayerMap langIndex lang)
      as (Happ & Hconfirm & Hfiles).
    destruct (generate_variant _ _ _ _ _ _ h) as [h1 [[]|exn]]; simpl in *.
    + destruct (IH h1 (S langIndex)) as (Happ' & Hconfirm' & Hfiles').
      split_and!; [by etrans | by etrans |].
      intros file Hfile. rewrite Hfiles', Hfiles; [done | |].
      * apply Hfile. by left.
      * intros lang' Hin. apply Hfile. by right.
    + split_and!; [done | done |]. intros file Hfile. apply Hfiles, Hfile. by left.
Qed.

(** The template is never the variant of a language: the derived name is
    longer than the name of the template. *)
Lemma target_path_fresh ccFile currentLang :
  fullName ccFile ≠ target_path ccFile currentLang.
Proof.
  unfold fullName, target_path. intros Heq.
  apply (f_equal String.length) in Heq.
  rewrite !string_length_app, generateTargetFilename_length in Heq. lia.
Qed.

Lemma mapTextLayers_host h ccFile rows sourceLang :
  (mapTextLayers ccFile rows sourceLang h).1 = h.
Proof.
  pose proof (mapTextLayers_match_run ccFile rows sourceLang h) as Hrun.
  unfold mapTextLayers, mbind, Script_bind.
  destruct (mapTextLayers_match ccFile rows sourceLang h) as [h' result].
  injection Hrun as -> _.
  destruct result as [[textLayerMap missingText]|exn]; [|done].
  destruct (decide _); [|done].
  unfold confirm. by destruct (confirm_answer h _).
Qed.

Lemma localize_document_frame h ccFile selectedLanguages rows file :
  (∀ lang, lang ∈ target selectedLanguages → file ≠ target_path ccFile lang) →
  files (localize_document ccFile selectedLanguages rows h).1 !! file = files h !! file.
Proof.
  intros Hfile. unfold localize_document, mbind, Script_bind.
  pose proof (mapTextLayers_host h ccFile rows (source selectedLanguages)) as Hhost.
  destruct (mapTextLayers _ _ _ h) as [h1 [[textLayerMap|]|exn]];
    simpl in Hhost; subst h1; [|done..].
  unfold try_catch, generateLocalizedFiles.
  pose proof (generateLocalizedFiles_loop_frame h ccFile rows textLayerMap 0
                (target selectedLanguages)) as (_ & _ & Hfiles).
  destruct (for_each (generate_variant ccFile rows textLayerMap) 0%nat
              (target selectedLanguages) () h) as [h' [[]|exn]];
    simpl in *; by apply Hfiles.
Qed.
End generate_variant.

(** C5.  The variant generator skips every row whose entry is the
    sentinel and writes only into elements named by an entry of the layer
    map: whether the turn ends or throws, an element that no row is mapped
    to has in the variant the text it has in the template; when the layer
    map holds only sentinels the variant is the copy of the template, with
    no edit. *)
Theorem variant_writes_only_mapped_elements (h : Host) ccFile (template : Document)
    rows (textLayerMap : list Z) langIndex currentLang :
  files h !! fullName ccFile = Some template →
  let targetFile := path ccFile +:+ "/" +:+ generateTargetFilename (name ccFile) currentLang in
  (∀ textLayers dataRow row targetDoc,
      textLayerMap !! dataRow = Some (-1) →
      write_row (app_name h) textLayers textLayerMap currentLang dataRow row targetDoc
      = Normal targetDoc)
  ∧ (∀ h' outcome,
      generate_variant ccFile rows textLayerMap langIndex currentLang () h
      = (h', outcome) →
      ∃ variant,
        files h' !! targetFile = Some variant ∧
        ∀ n, (∀ r, (r < length rows)%nat → textLayerMap !! r ≠ Some (Z.of_nat n)) →
             element_texts (app_name h) variant !! n
             = element_texts (app_name h) template !! n)
  ∧ (Forall (λ e, e = -1) textLayerMap →
     (length rows ≤ length textLayerMap)%nat →
     ∃ h',
       generate_variant ccFile rows textLayerMap langIndex currentLang () h
       = (h', Normal ()) ∧
       files h' !! targetFile = Some template).
Proof.
  intros Htemplate targetFile. split_and!.
  - intros textLayers dataRow row targetDoc. apply write_row_sentinel.
  - intros h' outcome. rewrite (generate_variant_run _ _ _ _ _ _ _ Htemplate). simpl.
    destruct (for_each _ _ _ _) as [variant|exn] eqn:Hrows.
    + intros [= <- _]. exists variant. simpl. rewrite lookup_insert_eq. split; [done |].
      intros n Hn.
      apply (write_rows_Normal _ _ _ _ _ _ _ _ eq_refl) in Hrows as [_ Hframe].
      apply Hframe. intros r Hr. apply Hn. lia.
    + intros [= <- _]. exists template. simpl. by rewrite lookup_insert_eq.
  - intros Hall Hlen. rewrite (generate_variant_run _ _ _ _ _ _ _ Htemplate). simpl.
    rewrite write_rows_sentinels.
    + eexists. split; [done |]. simpl. by rewrite lookup_insert_eq.
    + intros r Hr.
      destruct (lookup_lt_is_Some_2 textLayerMap r) as [e He]; [lia |].
      rewrite Forall_forall in Hall. rewrite He, (Hall e); [done |].
      by eapply list_elem_of_lookup_2.
Qed.

Lemma variant_writes_only_mapped_elements_witness :
  ∃ h',
    generate_variant poster greeting_rows [-1; -1] 0 "fr" ()
      (host_with ADOBE_PHOTOSHOP poster greeting_psd)
    = (h', Normal ()) ∧
    files h' !! (path poster +:+ "/" +:+ generateTargetFilename (name poster) "fr")
    = Some greeting_psd.
Proof.
  assert (files (host_with ADOBE_PHOTOSHOP poster greeting_psd) !! fullName poster
          = Some greeting_psd) as Htemplate by reflexivity.
  destruct (variant_writes_only_mapped_elements
              (host_with ADOBE_PHOTOSHOP poster greeting_psd) poster greeting_psd
              greeting_rows [-1; -1] 0 "fr" Htemplate) as (_ & _ & Hsentinels).
  apply Hsentinels.
  - repeat constructor.
  - simpl. lia.
Defined.

(** [part_000] guards its writes with the same test: a turn of its loop
    over the rows is the turn of [write_row] on the index, once the entry
    of the row is built. *)
Lemma Part000_localize_row_guard appName textLayers sourceLang currentLang
    dataRow (row : Row) (dataLayerIndices : list Z) (targetDoc : Document) :
  Part000.localize_row appName textLayers sourceLang currentLang dataRow row
                       (dataLayerIndices, targetDoc)
  = (dataLayerIndices' ←
       (if decide (length dataLayerIndices < dataRow + 1)%nat then
          matchingLayerIndex ←
            Part000.findMatchingTextLayer appName targetDoc textLayers (row !! sourceLang);
          mret (dataLayerIndices ++ [matchingLayerIndex])
        else mret dataLayerIndices);
     targetDoc' ← write_row appName textLayers dataLayerIndices' currentLang
                            dataRow row targetDoc;
     mret (dataLayerIndices', targetDoc')).
Proof.
  unfold Part000.localize_row, write_row.
  destruct (decide _); simpl.
  - destruct (Part000.findMatchingTextLayer _ _ _ _) as [e|]; simpl; [|done].
    destruct (_ !! dataRow) as [layerIndex|]; [|done].
    by destruct (decide (layerIndex = -1)).
  - destruct (_ !! dataRow) as [layerIndex|]; [|done].
    by destruct (decide (layerIndex = -1)).
Qed.

(** C7.  The source document is never changed.  The matcher leaves the
    host as it finds it (the document is closed without a save); the
    variant generator, and the whole run, leave the file of the template as
    it is, and change no file but the variants of the target languages,
    each of which is a copy under a name that differs from the name of the
    template. *)
Theorem source_document_never_mutated (h : Host) ccFile selectedLanguages rows :
  let targetFile lang :=
    path ccFile +:+ "/" +:+ generateTargetFilename (name ccFile) lang in
  (mapTextLayers ccFile rows (source selectedLanguages) h).1 = h
  ∧ (∀ textLayerMap,
      files (generateLocalizedFiles ccFile selectedLanguages rows textLayerMap h).1
        !! fullName ccFile
      = files h !! fullName ccFile)
  ∧ files (localize_document ccFile selectedLanguages rows h).1 !! fullName ccFile
    = files h !! fullName ccFile
  ∧ (∀ lang, targetFile lang ≠ fullName ccFile)
  ∧ (∀ file,
      (∀ lang, lang ∈ target selectedLanguages → file ≠ targetFile lang) →
      files (localize_document ccFile selectedLanguages rows h).1 !! file
      = files h !! file).
Proof.
  intros targetFile. split_and!.
  - apply mapTextLayers_host.
  - intros textLayerMap. unfold generateLocalizedFiles.
    apply generateLocalizedFiles_loop_frame.
    intros lang _. apply target_path_fresh.
  - apply localize_document_frame. intros lang _. apply target_path_fresh.
  - intros lang Heq. by apply (target_path_fresh ccFile lang).
  - apply localize_document_frame.
Qed.

Lemma source_document_never_mutated_witness :
  files (localize_document poster to_fr greeting_rows
           (host_with ADOBE_PHOTOSHOP poster greeting_psd)).1 !! "/work/notes.txt"
  = files (host_with ADOBE_PHOTOSHOP poster greeting_psd) !! "/work/notes.txt".
Proof.
  destruct (source_document_never_mutated
              (host_with ADOBE_PHOTOSHOP poster greeting_psd) poster to_fr greeting_rows)
    as (_ & _ & _ & _ & Hframe).
  apply Hframe. intros lang Hlang%list_elem_of_singleton Heq. subst lang.
  vm_compute in Heq. discriminate Heq.
Defined.

(** ** The two scripts compared *)

(** C9.  The two scripts are not equivalent.  On a document with the texts
    ["A"] and ["B"] and the rows (A, B) and (B, C), [mapTextLayers] maps the
    rows to the elements 0 and 1 and the French variant reads ["B"], ["C"];
    [part_000] searches the copy that it is rewriting, finds the
    translation of the first row in element 0 when it looks for the source
    text of the second row, maps both rows to element 0 and leaves the
    variant with ["C"], ["B"]. *)
Theorem part000_index_diverges :
  let h := host_with ADOBE_PHOTOSHOP poster chain_psd in
  let variant_texts (h' : Host) :=
    element_texts ADOBE_PHOTOSHOP <$> files h' !! "/work/poster_fr.psd" in
  (mapTextLayers poster chain_rows "en" h).2 = Normal (Some [0; 1])
  ∧ (Part000.generateLocalizedFiles_loop poster to_fr chain_rows h).2 = Normal [0; 0]
  ∧ variant_texts (localize_document poster to_fr chain_rows h).1 = Some ["B"; "C"]
  ∧ variant_texts (Part000.generateLocalizedFiles poster to_fr chain_rows h).1
    = Some ["C"; "B"].
Proof. vm_compute. done. Qed.

(** ** When the two scripts agree

    [part_000] and [PictureList_Import.jsx] build the same index and the
    same variants when the first target language has no translation whose
    key is the key of the source text of a later row. *)

Section part000_search.
Variable appName : string.
Implicit Types (document : Document) (cell : string) (n : nat) (e : Z).

Lemma Part000_findMatchingTextLayer_loop_spec document cell textLayers texts i :
  Forall2 (λ layer text, getLayerText appName document layer = Normal text)
          textLayers texts →
  ∃ e,
    Part000.findMatchingTextLayer_loop appName document (Some cell) i textLayers
    = Normal e ∧
    ((e = -1 ∧ ∀ n, ¬ has_key texts cell n)
     ∨ (∃ n, e = Z.of_nat (i + n) ∧ has_key texts cell n ∧
             ∀ n', (n' < n)%nat → ¬ has_key texts cell n')).
Proof.
intros Htexts. revert i.
induction Htexts as [|layer text textLayers texts Htext _ IH]; intros i; simpl.
- exists (-1). split; [done |]. left. split; [done |]. by intros n (text & ? & _).
- rewrite Htext. simpl.
  destruct (decide (_ = _)) as [Hkey|Hkey].
  + exists (Z.of_nat i). split; [done |]. right. exists 0%nat.
    rewrite Nat.add_0_r. split_and!; [done | by exists text | lia].
  + destruct (IH (S i)) as (e & -> & Hspec). exists e. split; [done |].
    destruct Hspec as [[-> Hnone]|(n & -> & (t & Ht & Hk) & Hfirst)].
    * left. split; [done |]. intros [|n] (t & Ht & Hk); simpl in *.
      -- injection Ht as ->. done.
      -- apply (Hnone n). by exists t.
    * right. exists (S n). split_and!.
      -- f_equal. lia.
      -- by exists t.
      -- intros [|n'] Hlt (t' & Ht' & Hk'); simpl in *.
         ++ injection Ht' as ->. done.
         ++ apply (Hfirst n'); [lia |]. by exists t'.
Qed.

(** The search of [part_000] returns the first element of the document, as
    it is when the search runs, that has the key of the cell. *)
Lemma Part000_findMatchingTextLayer_spec document cell :
  ∃ e,
    Part000.findMatchingTextLayer appName document
      (getDocumentTextLayers appName document) (Some cell) = Normal e ∧
    ((e = -1 ∧ ∀ n, ¬ has_key (element_texts appName document) cell n)
     ∨ (∃ n, e = Z.of_nat n ∧ has_key (element_texts appName document) cell n ∧
             ∀ n', (n' < n)%nat → ¬ has_key (element_texts appName document) cell n')).
Proof.
apply (Part000_findMatchingTextLayer_loop_spec _ _ _ _ 0), getLayerText_elements.
Qed.
End part000_search.

Section part000_first_variant.
Context (h : Host) (ccFile : File) (template : Document).
Context (rows : list Row) (sourceLang currentLang : string).
Context (textLayerMap : list Z) (missingText : list string).
Hypothesis Hdoc : files h !! fullName ccFile = Some template.
Hypothesis Hrun :
  (mapTextLayers_match ccFile rows sourceLang h).2 = Normal (textLayerMap, missingText).
(** No translation of a row has the key of the source text of a later row. *)
Hypothesis Hfree :
  ∀ r r' row translation cell,
    (r < r')%nat → rows !! r = Some row → row !! currentLang = Some translation →
    source_cell rows sourceLang r' = Some cell →
    NormalizedKey translation ≠ NormalizedKey cell.

Let appName := app_name h.
Let texts := element_texts appName template.
Let textLayers := getDocumentTextLayers appName template.

Implicit Types (targetDoc : Document) (cell : string) (n r k : nat) (e : Z).

(** The copy after the rows before [k] were written: an element that no
    such row claimed has the text of the template, and a claimed element
    has the translation of a row that claimed it. *)
Let written k targetDoc : Prop :=
  getDocumentTextLayers appName targetDoc = textLayers ∧
  ∀ n,
    (¬ claimed_before textLayerMap k n →
     element_texts appName targetDoc !! n = texts !! n) ∧
    (claimed_before textLayerMap k n →
     ∃ r row translation,
       (r < k)%nat ∧ rows !! r = Some row ∧ row !! currentLang = Some translation ∧
       element_texts appName targetDoc !! n = Some translation).

Lemma claimed_before_dec k n :
  claimed_before textLayerMap k n ∨ ¬ claimed_before textLayerMap k n.
Proof.
rewrite claimed_before_take.
destruct (decide (Z.of_nat n ∈ take k textLayerMap)); auto.
Qed.

Lemma claimed_before_S k n :
  claimed_before textLayerMap (S k) n
  ↔ claimed_before textLayerMap k n ∨ textLayerMap !! k = Some (Z.of_nat n).
Proof.
unfold claimed_before. split.
- intros (r & Hlt & Hr). destruct (decide (r = k)) as [->|]; [by right |].
  left. exists r. split; [lia | done].
- intros [(r & Hlt & Hr)|Hk]; [exists r | exists k]; split; (lia || done).
Qed.

Lemma first_available_unique k cell e e' :
  first_available texts textLayerMap k cell e →
  first_available texts textLayerMap k cell e' →
  e = e'.
Proof.
intros [[-> Hall]|(n & -> & Hn & Hfree_n & Hbefore)]
       [[-> Hall']|(n' & -> & Hn' & Hfree_n' & Hbefore')].
- done.
- destruct Hfree_n'. by apply Hall.
- destruct Hfree_n. by apply Hall'.
- f_equal. destruct (Nat.lt_trichotomy n n') as [Hlt|[->|Hlt]]; [|done|].
  + destruct Hfree_n. by apply Hbefore'.
  + destruct Hfree_n'. by apply Hbefore.
Qed.

Lemma has_key_written k targetDoc cell n :
  written k targetDoc →
  source_cell rows sourceLang k = Some cell →
  has_key (element_texts appName targetDoc) cell n
  ↔ has_key texts cell n ∧ ¬ claimed_before textLayerMap k n.
Proof.
intros [_ Hwritten] Hcell. destruct (Hwritten n) as [Hkept Hclaimed].
unfold has_key. split.
- intros (text & Htext & Hkey).
  destruct (claimed_before_dec k n) as [Hn|Hn].
  + destruct (Hclaimed Hn) as (r & row & translation & Hlt & Hrow & Htrans & Htext').
    rewrite Htext in Htext'. injection Htext' as ->.
    by destruct (Hfree r k row translation cell).
  + split; [|done]. exists text. by rewrite <-Hkept.
- intros [(text & Htext & Hkey) Hn]. exists text. by rewrite Hkept.
Qed.

(** On the copy as it is before row [k], the search of [part_000] finds
    the entry of row [k] in the layer map. *)
Lemma Part000_search_agrees k targetDoc cell e :
  written k targetDoc →
  source_cell rows sourceLang k = Some cell →
  textLayerMap !! k = Some e →
  Part000.findMatchingTextLayer appName targetDoc textLayers (Some cell) = Normal e.
Proof.
intros Hwritten Hcell He.
destruct (Part000_findMatchingTextLayer_spec appName targetDoc cell) as (e' & Hfind & Hspec).
destruct (Hwritten) as [Hrefs _]. rewrite Hrefs in Hfind. rewrite Hfind. f_equal.
apply (first_available_unique k cell);
  [|by apply (layer_map_first_available _ _ _ _ _ _ _ Hdoc Hrun)].
destruct Hspec as [[-> Hnone]|(n & -> & Hn & Hfirst)].
- left. split; [done |]. intros n Hn.
  destruct (claimed_before_dec k n) as [|Hfree_n]; [done |].
  destruct (Hnone n). by apply (has_key_written k).
- apply (has_key_written k) in Hn as [Hn Hfree_n]; [|done..].
  right. exists n. split_and!; [done..|].
  intros n' Hlt Hn'.
  destruct (claimed_before_dec k n') as [|Hfree_n']; [done |].
  destruct (Hfirst n' Hlt). by apply (has_key_written k).
Qed.

Lemma written_template : written 0 template.
Proof.
split; [done |]. intros n. split; [done |].
intros (r & Hlt & _). lia.
Qed.

Lemma written_step k row targetDoc targetDoc' :
  written k targetDoc →
  rows !! k = Some row →
  write_row appName textLayers textLayerMap currentLang k row targetDoc
  = Normal targetDoc' →
  written (S k) targetDoc'.
Proof.
intros [Hrefs Hwritten] Hrow Hwrite. rewrite <-Hrefs in Hwrite.
apply write_row_Normal in Hwrite as [Hrefs' Hwrite].
split; [congruence |]. intros n. destruct (Hwritten n) as [Hkept Hclaimed].
rewrite claimed_before_S.
destruct Hwrite as [[Hk ->]|(m & text & Hk & Htext & Hlen & ->)].
- split.
  + intros Hn. apply Hkept. tauto.
  + intros [Hn|Hn]; [|rewrite Hk in Hn; injection Hn as Hn; lia].
    destruct (Hclaimed Hn) as (r & row' & translation & ? & ? & ? & ?).
    exists r, row', translation. split_and!; [lia | done..].
- destruct (decide (n = m)) as [->|Hne].
  + split; [tauto |]. intros _. exists k, row, text.
    split_and!; [lia | done | done |]. by apply list_lookup_insert_eq.
  + rewrite list_lookup_insert_ne by done. split.
    * intros Hn. apply Hkept. tauto.
    * intros [Hn|Hn]; [|rewrite Hk in Hn; injection Hn as Hn; lia].
      destruct (Hclaimed Hn) as (r & row' & translation & ? & ? & ? & ?).
      exists r, row', translation. split_and!; [lia | done..].
Qed.

Lemma for_each_cons {A St} (body : nat → A → St → Completion St) i x rest st :
  for_each body i (x :: rest) st = (st' ← body i x st; for_each body (S i) rest st').
Proof. done. Qed.

Lemma write_row_entry textLayers' (map1 map2 : list Z) k row targetDoc :
  map1 !! k = map2 !! k →
  write_row appName textLayers' map1 currentLang k row targetDoc
  = write_row appName textLayers' map2 currentLang k row targetDoc.
Proof. unfold write_row. by intros ->. Qed.

(** The first variant of [part_000]: the interleaved loop builds the
    layer map of [mapTextLayers] and writes what [write_row] writes. *)
Lemma Part000_first_variant_rows k rest targetDoc :
  drop k rows = rest →
  written k targetDoc →
  for_each (Part000.localize_row appName textLayers sourceLang currentLang)
           k rest (take k textLayerMap, targetDoc)
  = (λ targetDoc', (textLayerMap, targetDoc'))
      <$> for_each (write_row appName textLayers textLayerMap currentLang)
                   k rest targetDoc.
Proof.
pose proof (layer_map_length _ _ _ _ _ _ _ Hdoc Hrun) as Hlen.
revert k targetDoc. induction rest as [|row rest IH]; intros k targetDoc Hdrop Hwritten.
- simpl. rewrite take_ge; [done |].
  apply (f_equal length) in Hdrop. rewrite length_drop in Hdrop. simpl in Hdrop. lia.
- assert (rows !! k = Some row) as Hrow.
  { rewrite <-(Nat.add_0_r k), <-lookup_drop, Hdrop. done. }
  assert (drop (S k) rows = rest) as Hdrop'.
  { rewrite (drop_S _ _ _ Hrow) in Hdrop. by injection Hdrop. }
  destruct (lookup_lt_is_Some_2 textLayerMap k) as [e He].
  { rewrite Hlen. by eapply lookup_lt_Some. }
  destruct (layer_map_claims _ _ _ _ _ _ _ Hdoc Hrun) as (cells & Hcells & _).
  destruct (Forall2_lookup_l _ _ _ _ _ Hcells Hrow) as (cell & Hcell_k & Hcell).
  assert (source_cell rows sourceLang k = Some cell) as Hsource.
  { unfold source_cell. by rewrite Hrow. }
  rewrite !for_each_cons, Part000_localize_row_guard.
  rewrite decide_True by (rewrite length_take; lia).
  rewrite Hcell, (Part000_search_agrees k _ _ _ Hwritten Hsource He). simpl.
  rewrite <-(take_S_r _ _ _ He).
  rewrite (write_row_entry _ (take (S k) textLayerMap) textLayerMap)
    by (apply lookup_take_lt; lia).
  destruct (write_row _ _ _ _ _ _ targetDoc) as [targetDoc'|exn] eqn:Hwrite; simpl; [|done].
  apply IH; [done |]. by eapply written_step.
Qed.
End part000_first_variant.

Section part000_variants.
Implicit Types (h : Host) (ccFile : File) (rows : list Row) (textLayerMap : list Z).

Lemma app_name_set_files fs h : app_name (set_files fs h) = app_name h.
Proof. done. Qed.

(** Once the index is built, a variant of [part_000] is written as by
    [write_row]. *)
Lemma Part000_later_variant_rows appName textLayers sourceLang currentLang
    textLayerMap k (rest : list Row) (targetDoc : Document) :
  (k + length rest ≤ length textLayerMap)%nat →
  for_each (Part000.localize_row appName textLayers sourceLang currentLang)
           k rest (textLayerMap, targetDoc)
  = (λ targetDoc', (textLayerMap, targetDoc'))
      <$> for_each (write_row appName textLayers textLayerMap currentLang)
                   k rest targetDoc.
Proof.
revert k targetDoc. induction rest as [|row rest IH]; intros k targetDoc Hlen; [done |].
simpl in Hlen.
rewrite !for_each_cons, Part000_localize_row_guard.
rewrite decide_False by lia. simpl.
destruct (write_row _ _ _ _ _ _ targetDoc) as [targetDoc'|exn]; simpl; [|done].
apply IH. lia.
Qed.

(** One turn of the loop over the languages in [part_000], when its loop
    over the rows does what [write_row] does with the layer map. *)
Lemma Part000_generate_variant_agrees h ccFile template rows sourceLang
    textLayerMap dataLayerIndices langIndex currentLang :
  files h !! fullName ccFile = Some template →
  for_each (Part000.localize_row (app_name h)
              (getDocumentTextLayers (app_name h) template) sourceLang currentLang)
           0%nat rows (dataLayerIndices, template)
  = (λ targetDoc', (textLayerMap, targetDoc'))
      <$> for_each (write_row (app_name h)
                      (getDocumentTextLayers (app_name h) template)
                      textLayerMap currentLang) 0%nat rows template →
  Part000.generate_variant ccFile sourceLang rows langIndex currentLang
                           dataLayerIndices h
  = let '(h', outcome) :=
      generate_variant ccFile rows textLayerMap langIndex currentLang () h in
    (h', (λ _, textLayerMap) <$> outcome).
Proof.
intros Htemplate Hrows.
rewrite (generate_variant_run _ _ _ _ _ _ _ Htemplate).
unfold Part000.generate_variant, File_copy, app_open, get_app_name, Document_save,
  Document_close, lift, mbind, Script_bind.
rewrite Htemplate. simpl. rewrite lookup_insert_eq, !app_name_set_files, Hrows.
by destruct (for_each (write_row _ _ _ _) _ _ _).
Qed.

Lemma generate_variant_template h ccFile template rows textLayerMap langIndex currentLang :
  files h !! fullName ccFile = Some template →
  let h' := (generate_variant ccFile rows textLayerMap langIndex currentLang () h).1 in
  app_name h' = app_name h ∧ files h' !! fullName ccFile = Some template.
Proof.
intros Htemplate.
destruct (generate_variant_frame h ccFile rows textLayerMap langIndex currentLang)
  as (Happ & _ & Hfiles).
split; [done |]. simpl. by rewrite Hfiles by apply target_path_fresh.
Qed.

(** The languages after the first: [part_000] with the layer map as its
    index does what [generateLocalizedFiles] does with the layer map. *)
Lemma Part000_later_variants h ccFile template rows sourceLang textLayerMap langIndex langs :
  files h !! fullName ccFile = Some template →
  length textLayerMap = length rows →
  for_each (Part000.generate_variant ccFile sourceLang rows) langIndex langs textLayerMap h
  = let '(h', outcome) :=
      for_each (generate_variant ccFile rows textLayerMap) langIndex langs () h in
    (h', (λ _, textLayerMap) <$> outcome).
Proof.
intros Htemplate Hlen. revert h langIndex Htemplate.
induction langs as [|lang langs IH]; intros h langIndex Htemplate; [done |].
simpl. unfold mbind, Script_bind.
rewrite (Part000_generate_variant_agrees _ _ template _ _ textLayerMap) by
  (by rewrite ?Part000_later_variant_rows by (simpl; lia)).
pose proof (generate_variant_template h ccFile template rows textLayerMap langIndex lang
              Htemplate) as [Happ Htemplate'].
destruct (generate_variant _ _ _ _ _ _ h) as [h1 [[]|exn]]; simpl in *; [|done].
by apply IH.
Qed.
End part000_variants.

(** The two scripts agree when the template exists, every row has a
    source cell, the user confirms, and no translation into the first
    target language has the key of the source text of a later row: the
    index that [part_000] builds during the first variant is the layer map
    of [mapTextLayers], and the two runs leave the same files. *)
Theorem part000_agrees_without_collision (h : Host) ccFile (template : Document)
    selectedLanguages rows firstLang langs :
  files h !! fullName ccFile = Some template →
  target selectedLanguages = firstLang :: langs →
  Forall (λ row : Row, is_Some (row !! source selectedLanguages)) rows →
  (∀ message, confirm_answer h message = true) →
  (∀ r r' row translation cell,
      (r < r')%nat → rows !! r = Some row → row !! firstLang = Some translation →
      source_cell rows (source selectedLanguages) r' = Some cell →
      NormalizedKey translation ≠ NormalizedKey cell) →
  ∃ textLayerMap,
    (mapTextLayers ccFile rows (source selectedLanguages) h).2
    = Normal (Some textLayerMap) ∧
    (∀ dataLayerIndices,
        (Part000.generateLocalizedFiles_loop ccFile selectedLanguages rows h).2
        = Normal dataLayerIndices →
        dataLayerIndices = textLayerMap) ∧
    (Part000.generateLocalizedFiles ccFile selectedLanguages rows h).1
    = (localize_document ccFile selectedLanguages rows h).1.
Proof.
intros Htemplate Htarget Hrows Hconfirm Hfree.
destruct (mapTextLayers_match_total ccFile rows (source selectedLanguages) h)
  as (textLayerMap & missingText & Hmatch); [by eexists | done |].
assert ((mapTextLayers_match ccFile rows (source selectedLanguages) h).2
        = Normal (textLayerMap, missingText)) as Hrun by (by rewrite Hmatch).
pose proof (layer_map_length _ _ _ _ _ _ _ Htemplate Hrun) as Hlen.
assert (mapTextLayers ccFile rows (source selectedLanguages) h
        = (h, Normal (Some textLayerMap))) as Hmap.
{ unfold mapTextLayers, mbind, Script_bind. rewrite Hmatch.
  destruct (decide _); [|done]. unfold confirm. by rewrite Hconfirm. }
assert (Part000.generateLocalizedFiles_loop ccFile selectedLanguages rows h
        = let '(h', outcome) :=
            generateLocalizedFiles ccFile selectedLanguages rows textLayerMap h in
          (h', (λ _, textLayerMap) <$> outcome)) as Hloop.
{ unfold Part000.generateLocalizedFiles_loop, generateLocalizedFiles.
  rewrite Htarget. simpl. unfold mbind, Script_bind.
  rewrite (Part000_generate_variant_agrees _ _ template _ _ textLayerMap);
    [|done |by apply (Part000_first_variant_rows h ccFile template rows
                        (source selectedLanguages) firstLang textLayerMap missingText
                        Htemplate Hrun Hfree 0%nat rows template eq_refl),
              written_template].
  pose proof (generate_variant_template h ccFile template rows textLayerMap 0 firstLang
                Htemplate) as [Happ Htemplate'].
  destruct (generate_variant _ _ _ _ _ _ h) as [h1 [[]|exn]]; simpl in *; [|done].
  by apply (Part000_later_variants _ _ template). }
exists textLayerMap. split_and!.
- by rewrite Hmap.
- rewrite Hloop.
  destruct (generateLocalizedFiles _ _ _ _ h) as [h' [[]|exn]]; simpl; congruence.
- unfold Part000.generateLocalizedFiles, localize_document, try_catch, mbind, Script_bind.
  rewrite Hloop, Hmap.
  by destruct (generateLocalizedFiles _ _ _ _ h) as [h' [[]|exn]].
Qed.

Lemma part000_agrees_without_collision_witness :
  (Part000.generateLocalizedFiles poster to_fr greeting_rows
     (host_with ADOBE_PHOTOSHOP poster greeting_psd)).1
  = (localize_document poster to_fr greeting_rows
       (host_with ADOBE_PHOTOSHOP poster greeting_psd)).1.
Proof.
destruct (part000_agrees_without_collision
            (host_with ADOBE_PHOTOSHOP poster greeting_psd) poster greeting_psd
            to_fr greeting_rows "fr" []) as (textLayerMap & _ & _ & Hfiles).
- reflexivity.
- reflexivity.
- repeat constructor; by eexists.
- reflexivity.
- intros [|[|r]] [|[|r']] row translation cell Hlt Hrow Htrans Hcell;
    try lia; try discriminate Hrow; try discriminate Hcell.
  injection Hrow as <-. injection Htrans as <-. injection Hcell as <-. discriminate.
- exact Hfiles.
Defined.

(** * Further properties *)

(** ** File names of distinct languages *)

Lemma string_app_inv_tail (s s' t : string) : s +:+ t = s' +:+ t → s = s'.
Proof.
revert s'. induction s as [|c s IH]; intros [|c' s'] Heq.
- done.
- apply (f_equal String.length) in Heq.
  rewrite string_app_cons, string_app_nil_l in Heq. simpl in Heq.
  rewrite string_length_app in Heq. lia.
- apply (f_equal String.length) in Heq.
  rewrite string_app_cons, string_app_nil_l in Heq. simpl in Heq.
  rewrite string_length_app in Heq. lia.
- rewrite !string_app_cons in Heq. injection Heq as -> Heq. f_equal. by apply IH.
Qed.

Lemma generateTargetFilename_lang_eq (sourceName lang1 lang2 : string) :
  generateTargetFilename sourceName lang1 = generateTargetFilename sourceName lang2 →
  lang1 = lang2.
Proof.
intros Heq.
destruct (includes "." sourceName) eqn:Hdot.
- destruct (includes_last _ _ Hdot) as (stem & ext & -> & Hext).
  rewrite !generateTargetFilename_dot in Heq by done.
  apply (inj (String.app stem)) in Heq.
  change ("_" +:+ ?l +:+ ?r) with (String "_" (l +:+ r)) in Heq.
  injection Heq as Heq. by apply string_app_inv_tail in Heq.
- rewrite !generateTargetFilename_no_dot in Heq by done.
  apply (inj (String.app sourceName)) in Heq.
  by injection Heq.
Qed.

(** Two different target languages never get the same file name: the
    variants of one run do not overwrite one another. *)
Theorem generateTargetFilename_lang_inj (sourceName lang1 lang2 : string) :
  lang1 ≠ lang2 →
  generateTargetFilename sourceName lang1 ≠ generateTargetFilename sourceName lang2.
Proof. intros Hne Heq. by apply Hne, (generateTargetFilename_lang_eq sourceName). Qed.

Lemma generateTargetFilename_lang_inj_witness :
  generateTargetFilename "poster.psd" "fr" ≠ generateTargetFilename "poster.psd" "fr_CA".
Proof. apply generateTargetFilename_lang_inj. discriminate. Defined.

(** ** Text layers *)

Section text_layers.
Variable appName : string.
Implicit Types (document : Document) (layer e : nat) (text : string).

Lemma elem_of_text_layers_from (ls : list Layer) k layer :
  layer ∈ text_layers_from k ls
  ↔ (k ≤ layer)%nat ∧ ∃ l, ls !! (layer - k)%nat = Some l ∧ kind l = TEXT.
Proof.
revert k. induction ls as [|l ls IH]; intros k; simpl.
- rewrite elem_of_nil. naive_solver.
- assert (layer ∈ text_layers_from (S k) ls
          ↔ (k < layer)%nat ∧ ∃ l', (l :: ls) !! (layer - k)%nat = Some l' ∧ kind l' = TEXT)
    as Htail.
  { rewrite IH. split.
    - intros [Hle (l' & Hl' & Hkind)]. split; [lia |]. exists l'.
      replace (layer - k)%nat with (S (layer - S k)) by lia. done.
    - intros [Hlt (l' & Hl' & Hkind)]. split; [lia |]. exists l'.
      replace (layer - k)%nat with (S (layer - S k)) in Hl' by lia. done. }
  destruct (decide (kind l = TEXT)) as [Hl|Hl].
  + rewrite elem_of_cons, Htail. split.
    * intros [->|[Hlt Hex]]; [|split; [lia | done]].
      split; [lia |]. exists l. by rewrite Nat.sub_diag.
    * intros [Hle (l' & Hl' & Hkind)].
      destruct (decide (layer = k)) as [->|]; [by left |].
      right. split; [lia |]. eauto.
  + rewrite Htail. split.
    * intros [Hlt Hex]. split; [lia | done].
    * intros [Hle (l' & Hl' & Hkind)].
      destruct (decide (layer = k)) as [->|]; [|split; [lia | eauto]].
      rewrite Nat.sub_diag in Hl'. simpl in Hl'. congruence.
Qed.

Lemma text_layers_from_sorted (ls : list Layer) k :
  StronglySorted lt (text_layers_from k ls).
Proof.
revert k. induction ls as [|l ls IH]; intros k; simpl; [constructor |].
destruct (decide (kind l = TEXT)); [|done].
constructor; [done |]. apply Forall_forall.
intros layer [Hle _]%elem_of_text_layers_from. lia.
Qed.

(** [getDocumentTextLayers] returns, in increasing order of position, all
    the text frames in Illustrator and InDesign and, in any other
    application, exactly the layers of kind [TEXT]; the text of every layer
    it returns can be read. *)
Theorem getDocumentTextLayers_enumerates document :
  let textLayers := getDocumentTextLayers appName document in
  StronglySorted lt textLayers
  ∧ Forall (λ layer, ∃ text, getLayerText appName document layer = Normal text) textLayers
  ∧ (appName = ADOBE_ILLUSTRATOR ∨ appName = ADOBE_INDESIGN →
     ∀ layer, layer ∈ textLayers ↔ (layer < length (textFrames document))%nat)
  ∧ (appName ≠ ADOBE_ILLUSTRATOR → appName ≠ ADOBE_INDESIGN →
     ∀ layer, layer ∈ textLayers
              ↔ ∃ l, layers document !! layer = Some l ∧ kind l = TEXT).
Proof.
simpl. split_and!.
- unfold getDocumentTextLayers, switch_app. destruct (_ || _).
  + apply StronglySorted_seq.
  + apply text_layers_from_sorted.
- pose proof (getLayerText_elements appName document) as Htexts.
  induction Htexts; constructor; eauto.
- intros Happ layer. unfold getDocumentTextLayers, switch_app.
  replace (_ || _) with true
    by (symmetry; apply orb_true_iff; destruct Happ as [->| ->];
        [left | right]; by apply bool_decide_eq_true).
  rewrite elem_of_seq. lia.
- intros Hai Hid layer. unfold getDocumentTextLayers, switch_app.
  rewrite !bool_decide_eq_false_2 by done. simpl.
  rewrite elem_of_text_layers_from, Nat.sub_0_r. split; [naive_solver |].
  intros Hex. split; [lia | done].
Qed.

(** A text written into a layer that [getDocumentTextLayers] returned is
    the text read from that layer afterwards; every other layer reads as
    before. *)
Theorem setLayerText_getLayerText document e layer text :
  getDocumentTextLayers appName document !! e = Some layer →
  ∃ document',
    setLayerText appName (Some layer) (Some text) document = Normal document' ∧
    getLayerText appName document' layer = Normal text ∧
    ∀ layer', layer' ≠ layer →
              getLayerText appName document' layer' = getLayerText appName document layer'.
Proof.
unfold setLayerText, getLayerText, getDocumentTextLayers, switch_app.
destruct (_ || _); simpl.
- intros [-> Hlt]%lookup_seq. simpl in *.
  destruct (lookup_lt_is_Some_2 (textFrames document) e Hlt) as [f Hf].
  rewrite Hf. simpl. eexists. split; [done |]. simpl. split.
  + by rewrite list_lookup_insert_eq.
  + intros layer' Hne. by rewrite list_lookup_insert_ne.
- intros Hin%list_elem_of_lookup_2.
  apply elem_of_text_layers_from in Hin as (_ & l & Hl & _).
  rewrite Nat.sub_0_r in Hl. rewrite Hl. simpl. eexists. split; [done |]. simpl. split.
  + rewrite list_lookup_insert_eq by (by eapply lookup_lt_Some). done.
  + intros layer' Hne. by rewrite list_lookup_insert_ne.
Qed.

(** [setLayerText] changes the text of one layer and nothing else: the
    number of layers, their kinds, every other layer and the number of text
    frames stay as they are. *)
Lemma setLayerText_structure document document' (written : option nat) newText :
  setLayerText appName written newText document = Normal document' →
  kind <$> layers document' = kind <$> layers document ∧
  length (textFrames document') = length (textFrames document) ∧
  ∀ i, written ≠ Some i → layers document' !! i = layers document !! i.
Proof.
unfold setLayerText, switch_app.
destruct written as [layer|]; [|done]. simpl.
destruct (_ || _).
- destruct (textFrames document !! layer) as [f|]; [|done]. simpl.
  destruct newText as [text|]; [|done]. simpl. intros [= <-]. simpl.
  by rewrite length_insert.
- destruct (layers document !! layer) as [l0|] eqn:Hl0; [|done]. simpl.
  destruct newText as [text|]; [|done]. simpl. intros [= <-]. simpl.
  split_and!; [|done|].
  + rewrite list_fmap_insert. simpl. apply list_insert_id.
    by rewrite list_lookup_fmap, Hl0.
  + intros i Hne. apply list_lookup_insert_ne. congruence.
Qed.
End text_layers.

Lemma getDocumentTextLayers_enumerates_witness :
  2%nat ∈ getDocumentTextLayers ADOBE_PHOTOSHOP greeting_psd
  ↔ ∃ l, layers greeting_psd !! 2%nat = Some l ∧ kind l = TEXT.
Proof.
refine (proj2 (proj2 (proj2
          (getDocumentTextLayers_enumerates ADOBE_PHOTOSHOP greeting_psd))) _ _ 2%nat);
  discriminate.
Defined.

Lemma setLayerText_getLayerText_witness :
  ∃ document',
    setLayerText ADOBE_PHOTOSHOP (Some 2%nat) (Some "Au revoir") greeting_psd
    = Normal document' ∧
    getLayerText ADOBE_PHOTOSHOP document' 2 = Normal "Au revoir" ∧
    ∀ layer', layer' ≠ 2%nat →
              getLayerText ADOBE_PHOTOSHOP document' layer'
              = getLayerText ADOBE_PHOTOSHOP greeting_psd layer'.
Proof.
apply (setLayerText_getLayerText ADOBE_PHOTOSHOP greeting_psd 1 2 "Au revoir").
reflexivity.
Defined.

(** ** The matcher: bounds, unmatched rows, failures *)

Lemma omap_unmatched_cells (rows : list Row) (cells : list string) sourceLang
    (entries : list Z) :
  Forall2 (λ row cell, row !! sourceLang = Some cell) rows cells →
  (filter (λ p : string * Z, p.2 = -1) (zip cells entries)).*1
  = omap (λ p : Row * Z, if decide (p.2 = -1) then p.1 !! sourceLang else None)
         (zip rows entries).
Proof.
intros Hcells. revert entries.
induction Hcells as [|row cell rows cells Hcell _ IH]; intros [|e entries]; try done.
simpl. rewrite filter_cons. simpl.
destruct (decide (e = -1)); simpl; rewrite ?Hcell; simpl; by rewrite IH.
Qed.

Section matcher_results.
Context (h : Host) (ccFile : File) (sourceDocument : Document).
Context (rows : list Row) (sourceLang : string).
Context (textLayerMap : list Z) (missingText : list string).
Hypothesis Hdoc : files h !! fullName ccFile = Some sourceDocument.
Hypothesis Hrun :
  (mapTextLayers_match ccFile rows sourceLang h).2 = Normal (textLayerMap, missingText).

Lemma layer_map_entry_bounds r e :
  textLayerMap !! r = Some e →
  e = -1 ∨ ∃ n, e = Z.of_nat n ∧
                (n < length (element_texts (app_name h) sourceDocument))%nat.
Proof.
destruct (layer_map_claims _ _ _ _ _ _ _ Hdoc Hrun) as (cells & Hcells & Heq).
apply (f_equal fst) in Heq. simpl in Heq. rewrite <-Heq. intros He.
destruct (decide (e = -1)) as [->|Hne]; [by left | right].
destruct (claim_rows_key _ _ _ _ He Hne) as (cell & _ & Hin).
apply elem_of_pool_of in Hin as (n & text & -> & Htext & _).
exists n. split; [done |]. by eapply lookup_lt_Some.
Qed.

Lemma layer_map_missing :
  missingText
  = omap (λ p : Row * Z, if decide (p.2 = -1) then p.1 !! sourceLang else None)
         (zip rows textLayerMap).
Proof.
destruct (layer_map_claims _ _ _ _ _ _ _ Hdoc Hrun) as (cells & Hcells & Heq).
pose proof (claim_rows_missing (pool_of (element_texts (app_name h) sourceDocument)) cells)
  as Hmissing.
rewrite Heq in Hmissing. simpl in Hmissing. rewrite Hmissing.
by apply omap_unmatched_cells.
Qed.
End matcher_results.

(** The entries of the layer map are the sentinel or indices of text
    elements of the source document: indexing the text layers of a copy of
    that document with an entry other than the sentinel never yields
    [undefined]. *)
Theorem mapTextLayers_in_bounds (h : Host) ccFile (sourceDocument : Document)
    rows sourceLang (textLayerMap : list Z) (r : nat) (e : Z) :
  files h !! fullName ccFile = Some sourceDocument →
  (mapTextLayers ccFile rows sourceLang h).2 = Normal (Some textLayerMap) →
  textLayerMap !! r = Some e →
  e = -1
  ∨ (0 ≤ e < Z.of_nat (length (element_texts (app_name h) sourceDocument))
     ∧ is_Some (array_get (getDocumentTextLayers (app_name h) sourceDocument) e)).
Proof.
intros Hdoc [missingText Hrun]%mapTextLayers_Some He.
destruct (layer_map_entry_bounds _ _ _ _ _ _ _ Hdoc Hrun _ _ He) as [->|(n & -> & Hn)];
  [by left | right].
split; [lia |]. unfold array_get. rewrite decide_True by lia. rewrite Nat2Z.id.
apply lookup_lt_is_Some. by rewrite getDocumentTextLayers_length.
Qed.

Lemma mapTextLayers_in_bounds_witness :
  (1 : Z) = -1
  ∨ (0 ≤ 1 < Z.of_nat (length (element_texts ADOBE_PHOTOSHOP greeting_psd))
     ∧ is_Some (array_get (getDocumentTextLayers ADOBE_PHOTOSHOP greeting_psd) 1)).
Proof.
apply (mapTextLayers_in_bounds (host_with ADOBE_PHOTOSHOP poster greeting_psd)
         poster greeting_psd greeting_rows "en" [0; 1] 1 1).
- reflexivity.
- vm_compute. reflexivity.
- reflexivity.
Defined.

(** The unmatched list holds the source cells, with their whitespace, of
    exactly the rows whose entry is the sentinel, in row order. *)
Theorem mapTextLayers_unmatched_list (h : Host) ccFile rows sourceLang
    (textLayerMap : list Z) (missingText : list string) :
  (mapTextLayers_match ccFile rows sourceLang h).2 = Normal (textLayerMap, missingText) →
  missingText
  = omap (λ p : Row * Z, if decide (p.2 = -1) then p.1 !! sourceLang else None)
         (zip rows textLayerMap).
Proof.
intros Hrun.
destruct (mapTextLayers_match_Normal _ _ _ _ _ _ Hrun) as (d & _ & Hd & _).
by eapply layer_map_missing.
Qed.

Lemma mapTextLayers_unmatched_list_witness :
  ["He  llo"]
  = omap (λ p : Row * Z, if decide (p.2 = -1) then p.1 !! "en" else None)
         (zip [en_fr "Hello" "Bonjour"; en_fr "He  llo" "Salut"] [0; -1]).
Proof.
apply (mapTextLayers_unmatched_list (host_with ADOBE_PHOTOSHOP poster hello_psd) poster
         [en_fr "Hello" "Bonjour"; en_fr "He  llo" "Salut"] "en" [0; -1] ["He  llo"]).
vm_compute. reflexivity.
Defined.

(** [mapTextLayers] never changes the host.  It returns its two arrays
    exactly when the source document opens and every row has a cell in the
    source language; a row without that cell makes it throw a [TypeError],
    and the throw leaves [main] before any file is written. *)
Theorem mapTextLayers_match_returns_iff (h : Host) ccFile selectedLanguages rows :
  let sourceLang := source selectedLanguages in
  (mapTextLayers_match ccFile rows sourceLang h).1 = h
  ∧ ((∃ result, (mapTextLayers_match ccFile rows sourceLang h).2 = Normal result)
     ↔ is_Some (files h !! fullName ccFile)
       ∧ Forall (λ row : Row, is_Some (row !! sourceLang)) rows)
  ∧ (is_Some (files h !! fullName ccFile) →
     Exists (λ row : Row, row !! sourceLang = None) rows →
     (mapTextLayers_match ccFile rows sourceLang h).2 = Throw TypeError)
  ∧ (∀ exn,
      (mapTextLayers_match ccFile rows sourceLang h).2 = Throw exn →
      localize_document ccFile selectedLanguages rows h = (h, Throw exn)).
Proof.
intros sourceLang. split_and!.
- by rewrite mapTextLayers_match_run.
- split.
  + intros [[textLayerMap missingText] Hrun].
    destruct (mapTextLayers_match_Normal _ _ _ _ _ _ Hrun) as (d & cells & Hd & Hcells & _).
    split; [by eexists |].
    apply Forall_forall. intros row Hin.
    apply list_elem_of_lookup_1 in Hin as [r Hr].
    destruct (Forall2_lookup_l _ _ _ _ _ Hcells Hr) as (cell & _ & Hcell). by eexists.
  + intros [Hfile Hrows].
    destruct (mapTextLayers_match_total ccFile rows sourceLang h Hfile Hrows)
      as (textLayerMap & missingText & ->). by eexists.
- intros [d Hd] Hex. rewrite mapTextLayers_match_run, Hd. simpl.
  by apply match_rows_undefined.
- intros exn Hthrow.
  pose proof (mapTextLayers_match_run ccFile rows sourceLang h) as Hrun.
  unfold localize_document, mapTextLayers, mbind, Script_bind. fold sourceLang.
  destruct (mapTextLayers_match ccFile rows sourceLang h) as [h' result].
  injection Hrun as -> _. simpl in Hthrow. by subst result.
Qed.

Lemma mapTextLayers_match_returns_iff_witness :
  localize_document poster to_fr [en_fr "Hello" "Bonjour"; {[ "fr" := "Salut" ]}]
    (host_with ADOBE_PHOTOSHOP poster hello_psd)
  = (host_with ADOBE_PHOTOSHOP poster hello_psd, Throw TypeError).
Proof.
destruct (mapTextLayers_match_returns_iff (host_with ADOBE_PHOTOSHOP poster hello_psd)
            poster to_fr [en_fr "Hello" "Bonjour"; {[ "fr" := "Salut" ]}])
  as (_ & _ & Hthrow & Hmain).
apply Hmain, Hthrow.
- by eexists.
- apply Exists_cons_tl, Exists_cons_hd. reflexivity.
Defined.



(** ** The variants: contents *)

Section variant_rows.
Variables (appName currentLang : string) (textLayerMap : list Z).
Implicit Types (targetDoc : Document) (row : Row) (rows : list Row) (n r k : nat).

(** The last row that is mapped to an element decides its text. *)
Lemma write_rows_last_writer textLayers rows k targetDoc targetDoc' r row n :
  textLayers = getDocumentTextLayers appName targetDoc →
  for_each (write_row appName textLayers textLayerMap currentLang)
           k rows targetDoc = Normal targetDoc' →
  rows !! r = Some row →
  textLayerMap !! (k + r)%nat = Some (Z.of_nat n) →
  (∀ r', (r < r' < length rows)%nat → textLayerMap !! (k + r')%nat ≠ Some (Z.of_nat n)) →
  is_Some (row !! currentLang) ∧
  element_texts appName targetDoc' !! n = row !! currentLang.
Proof.
revert k targetDoc r.
induction rows as [|row0 rows IH]; intros k targetDoc r Hrefs Hrun Hrow Hentry Hlast;
  [done |].
rewrite for_each_cons in Hrun.
destruct (write_row _ _ _ _ _ _ targetDoc) as [targetDoc1|] eqn:Hwrite; [|done].
simpl in Hrun. rewrite Hrefs in Hwrite.
apply write_row_Normal in Hwrite as [Hrefs1 Hwrite]. rewrite <-Hrefs in Hrefs1.
destruct r as [|r]; simpl in Hrow.
- injection Hrow as ->. rewrite Nat.add_0_r in Hentry.
  destruct Hwrite as [[Hk _]|(n' & text & Hk & Htext & Hlen & Htexts)];
    rewrite Hentry in Hk; injection Hk as Hk; [lia |].
  apply (inj Z.of_nat) in Hk as <-.
  destruct (write_rows_Normal _ _ _ _ _ _ _ _ (eq_sym Hrefs1) Hrun) as [_ Hframe].
  rewrite Hframe, Htexts, Htext.
  + split; [by eexists |]. by apply list_lookup_insert_eq.
  + intros r' Hr'. replace r' with (k + (r' - k))%nat by lia.
    apply Hlast. simpl. lia.
- replace (k + S r)%nat with (S k + r)%nat in Hentry by lia.
  apply (IH (S k) targetDoc1 r); [done..|].
  intros r' Hr'. replace (S k + r')%nat with (k + S r')%nat by lia.
  apply Hlast. simpl. lia.
Qed.

(** The rows are written without a throw when every entry is the sentinel
    or indexes a text layer of the copy, and every row that has an entry
    other than the sentinel has a cell in the language. *)
Lemma write_rows_succeeds textLayers rows k targetDoc :
  textLayers = getDocumentTextLayers appName targetDoc →
  (∀ r row, rows !! r = Some row →
            ∃ e, textLayerMap !! (k + r)%nat = Some e ∧
                 (e = -1 ∨ (is_Some (array_get textLayers e)
                            ∧ is_Some (row !! currentLang)))) →
  ∃ targetDoc',
    for_each (write_row appName textLayers textLayerMap currentLang)
             k rows targetDoc = Normal targetDoc'.
Proof.
revert k targetDoc. induction rows as [|row rows IH]; intros k targetDoc Hrefs Hok.
- by eexists.
- rewrite for_each_cons.
  destruct (Hok 0%nat row eq_refl) as (e & He & Hcase). rewrite Nat.add_0_r in He.
  assert (∃ targetDoc1,
             write_row appName textLayers textLayerMap currentLang k row targetDoc
             = Normal targetDoc1 ∧
             getDocumentTextLayers appName targetDoc1 = textLayers)
    as (targetDoc1 & -> & Hrefs1).
  { unfold write_row. rewrite He.
    destruct Hcase as [->|[[layer Hlayer] [text Htext]]]; [by eexists |].
    destruct (decide (e = -1)); [by eexists |].
    rewrite Hlayer, Htext.
    unfold array_get in Hlayer. destruct (decide (0 ≤ e)); [|done].
    rewrite Hrefs in Hlayer.
    destruct (setLayerText_element appName targetDoc _ _ text Hlayer)
      as (document' & -> & Hrefs' & _).
    exists document'. split; [done | congruence]. }
  simpl. apply IH; [done |].
  intros r row' Hrow'. replace (S k + r)%nat with (k + S r)%nat by lia. by apply Hok.
Qed.

(** Writing the rows keeps the number of layers, their kinds, the layers
    of a kind other than [TEXT] and the number of text frames. *)
Lemma write_rows_structure textLayers rows k targetDoc targetDoc' :
  textLayers = getDocumentTextLayers appName targetDoc →
  for_each (write_row appName textLayers textLayerMap currentLang)
           k rows targetDoc = Normal targetDoc' →
  kind <$> layers targetDoc' = kind <$> layers targetDoc ∧
  length (textFrames targetDoc') = length (textFrames targetDoc) ∧
  ∀ i l, layers targetDoc !! i = Some l → kind l ≠ TEXT →
         layers targetDoc' !! i = Some l.
Proof.
revert k targetDoc. induction rows as [|row rows IH]; intros k targetDoc Hrefs Hrun.
- injection Hrun as <-. done.
- rewrite for_each_cons in Hrun.
  destruct (write_row _ _ _ _ _ _ targetDoc) as [targetDoc1|] eqn:Hwrite; [|done].
  simpl in Hrun.
  assert (getDocumentTextLayers appName targetDoc1 = textLayers) as Hrefs1.
  { rewrite Hrefs in Hwrite. apply write_row_Normal in Hwrite as [-> _]. done. }
  destruct (IH _ _ (eq_sym Hrefs1) Hrun) as (Hkinds & Hframes & Hother).
  assert (kind <$> layers targetDoc1 = kind <$> layers targetDoc ∧
          length (textFrames targetDoc1) = length (textFrames targetDoc) ∧
          ∀ i l, layers targetDoc !! i = Some l → kind l ≠ TEXT →
                 layers targetDoc1 !! i = Some l) as (Hkinds1 & Hframes1 & Hother1).
  { unfold write_row in Hwrite.
    destruct (textLayerMap !! k) as [e|]; [|done].
    destruct (decide (e = -1)); [by injection Hwrite as <- |].
    destruct (setLayerText_structure _ _ _ _ _ Hwrite) as (Hk & Hf & Ho).
    split_and!; [done | done |]. intros i l Hl Hkind.
    unfold setLayerText, switch_app in Hwrite.
    destruct (array_get textLayers e) as [layer|] eqn:Hlayer; [|done]. simpl in Hwrite.
    destruct (bool_decide _ || bool_decide _) eqn:Happ.
    - destruct (textFrames targetDoc !! layer); [|done]. simpl in Hwrite.
      destruct (row !! currentLang); [|done]. by injection Hwrite as <-.
    - rewrite Ho, Hl; [done |]. intros [= ->].
      unfold array_get in Hlayer. destruct (decide (0 ≤ e)); [|done].
      apply list_elem_of_lookup_2 in Hlayer.
      rewrite Hrefs in Hlayer. unfold getDocumentTextLayers, switch_app in Hlayer.
      rewrite Happ in Hlayer.
      apply elem_of_text_layers_from in Hlayer as (_ & l' & Hl' & Hkind').
      rewrite Nat.sub_0_r in Hl'. congruence. }
  split_and!; [congruence | congruence |].
  intros i l Hl Hkind. apply Hother; [by apply Hother1 | done].
Qed.
End variant_rows.

(** ** The variants: the loop over the languages *)

Section variants_run.
Variables (ccFile : File) (rows : list Row) (textLayerMap : list Z).
Implicit Types (h : Host) (langs : list string) (template : Document).

Lemma target_file_inj lang1 lang2 :
  lang1 ≠ lang2 → target_file ccFile lang1 ≠ target_file ccFile lang2.
Proof.
intros Hne Heq. apply Hne, (generateTargetFilename_lang_eq (name ccFile)).
unfold target_file in Heq. rewrite <-!string_app_assoc in Heq.
revert Heq. generalize (generateTargetFilename (name ccFile) lang1).
generalize (generateTargetFilename (name ccFile) lang2).
intros s2 s1. generalize (path ccFile +:+ "/"). intros p.
induction p as [|a p IH]; rewrite ?string_app_nil_l, ?string_app_cons;
  [done | intros [= ?]; auto].
Qed.

(** The loop over the languages, for distinct languages and a template that
    exists: it either ends, and then every language has its variant, which
    is the template with the rows of that language written into it and of
    no other; or it stops at the first language whose rows throw, and then
    the languages before it have their variants, the file of the failing
    language is the plain copy of the template, and the files of the
    languages after it are as they were. *)
Lemma generateLocalizedFiles_loop_run langs langIndex h h' outcome template :
  files h !! fullName ccFile = Some template →
  NoDup langs →
  for_each (generate_variant ccFile rows textLayerMap) langIndex langs () h
  = (h', outcome) →
  (outcome = Normal () ∧
   ∀ lang, lang ∈ langs →
     ∃ variant, write_rows (app_name h) textLayerMap lang rows template = Normal variant ∧
                files h' !! target_file ccFile lang = Some variant)
  ∨ (∃ before failing rest exn,
       langs = before ++ failing :: rest ∧ outcome = Throw exn ∧
       write_rows (app_name h) textLayerMap failing rows template = Throw exn ∧
       (∀ lang, lang ∈ before →
          ∃ variant,
            write_rows (app_name h) textLayerMap lang rows template = Normal variant ∧
            files h' !! target_file ccFile lang = Some variant) ∧
       files h' !! target_file ccFile failing = Some template ∧
       ∀ lang, lang ∈ rest →
               files h' !! target_file ccFile lang = files h !! target_file ccFile lang).
Proof.
revert langIndex h. induction langs as [|lang langs IH]; intros langIndex h Htemplate Hnodup Hrun.
- injection Hrun as <- <-. left. split; [done |]. intros lang Hin. by apply elem_of_nil in Hin.
- apply NoDup_cons in Hnodup as [Hfresh Hnodup].
  change (match generate_variant ccFile rows textLayerMap langIndex lang () h with
          | (h1, Normal u) =>
              for_each (generate_variant ccFile rows textLayerMap) (S langIndex) langs u h1
          | (h1, Throw exn) => (h1, Throw exn)
          end = (h', outcome)) in Hrun.
  rewrite (generate_variant_run _ _ _ _ _ _ _ Htemplate) in Hrun.
  fold (target_file ccFile lang) in Hrun.
  fold (write_rows (app_name h) textLayerMap lang rows template) in Hrun.
  destruct (write_rows (app_name h) textLayerMap lang rows template)
    as [variant|exn] eqn:Hwrite; simpl in Hrun.
  + set (h2 := set_files _ _) in Hrun.
    assert (files h2 !! fullName ccFile = Some template) as Htemplate2.
    { unfold h2. simpl. rewrite !lookup_insert_ne; [done |..];
        apply not_eq_sym, target_path_fresh. }
    assert (app_name h2 = app_name h) as Happ by done.
    assert (files h2 !! target_file ccFile lang = Some variant) as Hvariant.
    { unfold h2. simpl. by rewrite lookup_insert_eq. }
    assert (∀ lang', lang' ≠ lang →
              files h2 !! target_file ccFile lang' = files h !! target_file ccFile lang')
      as Hothers.
    { intros lang' Hne. unfold h2. simpl.
      rewrite !lookup_insert_ne; [done |..]; apply not_eq_sym; by apply target_file_inj. }
    assert (files h' !! target_file ccFile lang = Some variant) as Hkept.
    { pose proof (generateLocalizedFiles_loop_frame h2 ccFile rows textLayerMap
                    (S langIndex) langs) as Hframe.
      cbv zeta in Hframe. rewrite Hrun in Hframe. destruct Hframe as (_ & _ & Hframe).
      simpl in Hframe. rewrite Hframe; [done |].
      intros lang' Hin. apply target_file_inj. intros ->. done. }
    destruct (IH _ _ Htemplate2 Hnodup Hrun)
      as [[-> Hall]|(before & failing & rest & exn & -> & -> & Hthrow & Hdone & Hfail & Hrest)];
      rewrite Happ in *.
    * left. split; [done |]. intros lang' [->|Hin]%elem_of_cons; [by eexists | auto].
    * right. exists (lang :: before), failing, rest, exn. split_and!; [done..| | done |].
      -- intros lang' [->|Hin]%elem_of_cons; [by eexists | auto].
      -- intros lang' Hin. rewrite Hrest, Hothers; [done | | done].
         intros ->. apply Hfresh. apply elem_of_app. right. by apply elem_of_cons; right.
  + injection Hrun as <- <-. right. exists [], lang, langs, exn.
    split_and!; [done.. | | |].
    * intros lang' Hin. by apply elem_of_nil in Hin.
    * simpl. by rewrite lookup_insert_eq.
    * intros lang' Hin. simpl. rewrite lookup_insert_ne; [done |].
      apply target_file_inj. by intros ->.
Qed.
End variants_run.

(** Each variant of a run that ends holds the rows of its own language and
    of no other: it is the template with the cells of that language
    written into it, whatever the other target languages are and in
    whatever order they are processed. *)
Theorem generateLocalizedFiles_isolated (h h' : Host) ccFile selectedLanguages rows
    (textLayerMap : list Z) (template : Document) :
  files h !! fullName ccFile = Some template →
  NoDup (target selectedLanguages) →
  generateLocalizedFiles ccFile selectedLanguages rows textLayerMap h = (h', Normal ()) →
  ∀ lang, lang ∈ target selectedLanguages →
    ∃ variant,
      write_rows (app_name h) textLayerMap lang rows template = Normal variant ∧
      files h' !! target_file ccFile lang = Some variant.
Proof.
intros Htemplate Hnodup Hrun.
destruct (generateLocalizedFiles_loop_run _ _ _ _ _ _ _ _ _ Htemplate Hnodup Hrun)
  as [[_ Hall]|(before & failing & rest & exn & _ & Hthrow & _)]; done.
Qed.

Lemma generateLocalizedFiles_isolated_witness :
  ∃ variant,
    write_rows ADOBE_PHOTOSHOP [0; 1] "de" greeting_rows_fr_de greeting_psd
    = Normal variant ∧
    files (generateLocalizedFiles poster to_fr_de greeting_rows_fr_de [0; 1]
             (host_with ADOBE_PHOTOSHOP poster greeting_psd)).1
      !! target_file poster "de" = Some variant.
Proof.
apply (generateLocalizedFiles_isolated (host_with ADOBE_PHOTOSHOP poster greeting_psd)
         _ poster to_fr_de greeting_rows_fr_de [0; 1] greeting_psd).
- reflexivity.
- apply (bool_decide_unpack _). vm_compute. exact I.
- vm_compute. reflexivity.
- apply (bool_decide_unpack _). vm_compute. exact I.
Defined.

(** A throw while the rows of a language are written ends the whole loop:
    the languages before it have their variants, the file of the failing
    language stays the plain copy of the template (it was copied and never
    saved), and no file of a later language is created or changed. *)
Theorem generateLocalizedFiles_stops_at_first_failure (h h' : Host) ccFile
    selectedLanguages rows (textLayerMap : list Z) (template : Document) (exn : Exn) :
  files h !! fullName ccFile = Some template →
  NoDup (target selectedLanguages) →
  generateLocalizedFiles ccFile selectedLanguages rows textLayerMap h = (h', Throw exn) →
  ∃ before failing rest,
    target selectedLanguages = before ++ failing :: rest ∧
    write_rows (app_name h) textLayerMap failing rows template = Throw exn ∧
    (∀ lang, lang ∈ before →
       ∃ variant,
         write_rows (app_name h) textLayerMap lang rows template = Normal variant ∧
         files h' !! target_file ccFile lang = Some variant) ∧
    files h' !! target_file ccFile failing = Some template ∧
    ∀ lang, lang ∈ rest →
            files h' !! target_file ccFile lang = files h !! target_file ccFile lang.
Proof.
intros Htemplate Hnodup Hrun.
destruct (generateLocalizedFiles_loop_run _ _ _ _ _ _ _ _ _ Htemplate Hnodup Hrun)
  as [[Hthrow _]|(before & failing & rest & exn' & Hlangs & [= <-] & Hrest)]; [done |].
by exists before, failing, rest.
Qed.

Lemma generateLocalizedFiles_stops_at_first_failure_witness :
  ∃ before failing rest,
    ["fr"; "de"] = before ++ failing :: rest ∧
    write_rows ADOBE_PHOTOSHOP [0] failing greeting_rows_fr_de greeting_psd
    = Throw TypeError ∧
    (∀ lang, lang ∈ before →
       ∃ variant,
         write_rows ADOBE_PHOTOSHOP [0] lang greeting_rows_fr_de greeting_psd
         = Normal variant ∧
         files (generateLocalizedFiles poster to_fr_de greeting_rows_fr_de [0]
                  (host_with ADOBE_PHOTOSHOP poster greeting_psd)).1
           !! target_file poster lang = Some variant) ∧
    files (generateLocalizedFiles poster to_fr_de greeting_rows_fr_de [0]
             (host_with ADOBE_PHOTOSHOP poster greeting_psd)).1
      !! target_file poster failing = Some greeting_psd ∧
    ∀ lang, lang ∈ rest →
      files (generateLocalizedFiles poster to_fr_de greeting_rows_fr_de [0]
               (host_with ADOBE_PHOTOSHOP poster greeting_psd)).1
        !! target_file poster lang
      = files (host_with ADOBE_PHOTOSHOP poster greeting_psd) !! target_file poster lang.
Proof.
apply (generateLocalizedFiles_stops_at_first_failure
         (host_with ADOBE_PHOTOSHOP poster greeting_psd) _ poster to_fr_de
         greeting_rows_fr_de [0] greeting_psd TypeError).
- reflexivity.
- apply (bool_decide_unpack _). vm_compute. exact I.
- vm_compute. reflexivity.
Defined.

(** When several rows are mapped to one element, the text of the last of
    them stays in the variant; a row that is the only one mapped to its
    element therefore puts its cell there. *)
Theorem write_rows_last_row_wins appName (textLayerMap : list Z) currentLang
    (rows : list Row) (targetDoc variant : Document) (r : nat) (row : Row) (n : nat) :
  write_rows appName textLayerMap currentLang rows targetDoc = Normal variant →
  rows !! r = Some row →
  textLayerMap !! r = Some (Z.of_nat n) →
  (∀ r', (r < r' < length rows)%nat → textLayerMap !! r' ≠ Some (Z.of_nat n)) →
  is_Some (row !! currentLang) ∧
  element_texts appName variant !! n = row !! currentLang.
Proof.
intros Hrun Hrow Hentry Hlast.
by apply (write_rows_last_writer appName currentLang textLayerMap _ rows 0%nat
            targetDoc variant r row n eq_refl Hrun).
Qed.

Lemma write_rows_last_row_wins_witness :
  is_Some (en_fr "B" "C" !! "fr") ∧
  element_texts ADOBE_PHOTOSHOP
    {| layers := [text_layer "C"; text_layer "B"]; textFrames := [] |} !! 0%nat
  = en_fr "B" "C" !! "fr".
Proof.
apply (write_rows_last_row_wins ADOBE_PHOTOSHOP [0; 0] "fr" chain_rows chain_psd
         {| layers := [text_layer "C"; text_layer "B"]; textFrames := [] |}
         1 (en_fr "B" "C") 0).
- vm_compute. reflexivity.
- reflexivity.
- reflexivity.
- simpl. lia.
Defined.

(** Writing the rows never adds, removes or reorders a layer or a frame:
    the kinds of the layers, the layers that are not text layers, the
    number of text frames and the enumeration of the text elements are
    those of the document the rows were written into. *)
Theorem write_rows_keeps_structure appName (textLayerMap : list Z) currentLang
    (rows : list Row) (targetDoc variant : Document) :
  write_rows appName textLayerMap currentLang rows targetDoc = Normal variant →
  kind <$> layers variant = kind <$> layers targetDoc ∧
  length (textFrames variant) = length (textFrames targetDoc) ∧
  (∀ i l, layers targetDoc !! i = Some l → kind l ≠ TEXT → layers variant !! i = Some l) ∧
  getDocumentTextLayers appName variant = getDocumentTextLayers appName targetDoc ∧
  length (element_texts appName variant) = length (element_texts appName targetDoc).
Proof.
intros Hrun.
destruct (write_rows_structure appName currentLang textLayerMap _ rows 0%nat
            targetDoc variant eq_refl Hrun) as (Hkinds & Hframes & Hother).
destruct (write_rows_Normal appName currentLang textLayerMap _ rows 0%nat
            targetDoc variant eq_refl Hrun) as [Hrefs _].
split_and!; [done.. |].
by rewrite <-!getDocumentTextLayers_length, Hrefs.
Qed.

Lemma write_rows_keeps_structure_witness :
  ∃ variant,
    write_rows ADOBE_PHOTOSHOP [0; 1] "fr" greeting_rows greeting_psd = Normal variant ∧
    layers variant !! 1%nat = Some image_layer.
Proof.
eexists. split; [vm_compute; reflexivity |].
refine (proj1 (proj2 (proj2
          (write_rows_keeps_structure ADOBE_PHOTOSHOP [0; 1] "fr" greeting_rows
             greeting_psd _ _))) 1%nat image_layer _ _).
- vm_compute. reflexivity.
- reflexivity.
- discriminate.
Defined.

(** ** The whole run *)

(** On a well-formed input the run goes through and translates: when the
    template exists, every row has a cell in the source language and in
    every target language, the target languages are distinct and the user
    confirms, [main] ends without a throw, and every target language has
    its variant, in which each element a row is mapped to holds the cell
    of that row in that language and every other element holds the text of
    the template. *)
Theorem localize_document_translates (h : Host) ccFile selectedLanguages
    (rows : list Row) (template : Document) :
  files h !! fullName ccFile = Some template →
  Forall (λ row : Row, is_Some (row !! source selectedLanguages)) rows →
  Forall (λ row : Row, ∀ lang, lang ∈ target selectedLanguages → is_Some (row !! lang))
         rows →
  NoDup (target selectedLanguages) →
  (∀ message, confirm_answer h message = true) →
  ∃ (textLayerMap : list Z) (h' : Host),
    mapTextLayers ccFile rows (source selectedLanguages) h
    = (h, Normal (Some textLayerMap)) ∧
    localize_document ccFile selectedLanguages rows h = (h', Normal ()) ∧
    ∀ lang, lang ∈ target selectedLanguages →
      ∃ variant,
        files h' !! target_file ccFile lang = Some variant ∧
        (∀ r row n, rows !! r = Some row → textLayerMap !! r = Some (Z.of_nat n) →
           element_texts (app_name h) variant !! n = row !! lang) ∧
        (∀ n, (∀ r, textLayerMap !! r ≠ Some (Z.of_nat n)) →
           element_texts (app_name h) variant !! n
           = element_texts (app_name h) template !! n).
Proof.
intros Htemplate Hsource Htarget Hnodup Hconfirm.
destruct (mapTextLayers_match_total ccFile rows (source selectedLanguages) h
            (mk_is_Some _ _ Htemplate) Hsource) as (textLayerMap & missingText & Hmatch).
assert ((mapTextLayers_match ccFile rows (source selectedLanguages) h).2
        = Normal (textLayerMap, missingText)) as Hrun by (by rewrite Hmatch).
assert (mapTextLayers ccFile rows (source selectedLanguages) h
        = (h, Normal (Some textLayerMap))) as Hmap.
{ unfold mapTextLayers, mbind, Script_bind. rewrite Hmatch.
  destruct (decide _); [|done]. unfold confirm. by rewrite Hconfirm. }
pose proof (layer_map_length _ _ _ _ _ _ _ Htemplate Hrun) as Hlen.
assert (∀ lang, lang ∈ target selectedLanguages →
          ∃ variant, write_rows (app_name h) textLayerMap lang rows template
                     = Normal variant) as Hwrites.
{ intros lang Hlang. apply write_rows_succeeds; [done |].
  intros r row Hrow. simpl.
  destruct (lookup_lt_is_Some_2 textLayerMap r) as [e He].
  { rewrite Hlen. by eapply lookup_lt_Some. }
  exists e. split; [done |].
  destruct (layer_map_entry_bounds _ _ _ _ _ _ _ Htemplate Hrun _ _ He)
    as [->|(n & -> & Hn)]; [by left | right].
  split.
  - unfold array_get. rewrite decide_True by lia. rewrite Nat2Z.id.
    apply lookup_lt_is_Some. by rewrite getDocumentTextLayers_length.
  - eapply Forall_lookup_1 in Htarget; [|done]. by apply Htarget. }
destruct (generateLocalizedFiles ccFile selectedLanguages rows textLayerMap h)
  as [h' outcome] eqn:Hgen.
destruct (generateLocalizedFiles_loop_run _ _ _ _ _ _ _ _ _ Htemplate Hnodup Hgen)
  as [[-> Hall]|(before & failing & rest & exn & Hlangs & _ & Hthrow & _)].
- exists textLayerMap, h'. split_and!; [done | |].
  + unfold localize_document, mbind, Script_bind. rewrite Hmap.
    unfold try_catch. by rewrite Hgen.
  + intros lang Hlang. destruct (Hall lang Hlang) as (variant & Hwrite & Hfile).
    exists variant. split_and!; [done | |].
    * intros r row n Hrow Hentry.
      apply (write_rows_last_writer (app_name h) lang textLayerMap _ rows 0%nat
               template variant r row n eq_refl Hwrite Hrow Hentry).
      intros r' Hr' Hentry'. simpl in Hentry'.
      pose proof (layer_map_injective _ _ _ _ _ _ _ Htemplate Hrun _ _ _ Hentry Hentry').
      lia.
    * intros n Hfree.
      by apply (write_rows_Normal (app_name h) lang textLayerMap _ rows 0%nat
                  template variant eq_refl Hwrite).
- destruct (Hwrites failing) as [variant Hvariant]; [|congruence].
  rewrite Hlangs. apply elem_of_app. right. by left.
Qed.

Lemma localize_document_translates_witness :
  ∃ (textLayerMap : list Z) (h' : Host),
    mapTextLayers poster greeting_rows_fr_de "en"
      (host_with ADOBE_PHOTOSHOP poster greeting_psd)
    = (host_with ADOBE_PHOTOSHOP poster greeting_psd, Normal (Some textLayerMap)) ∧
    localize_document poster to_fr_de greeting_rows_fr_de
      (host_with ADOBE_PHOTOSHOP poster greeting_psd) = (h', Normal ()) ∧
    ∀ lang, lang ∈ ["fr"; "de"] →
      ∃ variant,
        files h' !! target_file poster lang = Some variant ∧
        (∀ r row n, greeting_rows_fr_de !! r = Some row →
           textLayerMap !! r = Some (Z.of_nat n) →
           element_texts ADOBE_PHOTOSHOP variant !! n = row !! lang) ∧
        (∀ n, (∀ r, textLayerMap !! r ≠ Some (Z.of_nat n)) →
           element_texts ADOBE_PHOTOSHOP variant !! n
           = element_texts ADOBE_PHOTOSHOP greeting_psd !! n).
Proof.
apply (localize_document_translates (host_with ADOBE_PHOTOSHOP poster greeting_psd)
         poster to_fr_de greeting_rows_fr_de greeting_psd).
- reflexivity.
- apply (bool_decide_unpack _). vm_compute. exact I.
- apply Forall_forall.
  intros row [->|[->|[]%elem_of_nil]%elem_of_cons]%elem_of_cons
         lang [->|[->|[]%elem_of_nil]%elem_of_cons]%elem_of_cons;
    eexists; reflexivity.
- apply (bool_decide_unpack _). vm_compute. exact I.
- reflexivity.
Defined.

(** ** The choice of the languages *)

Section language_dialog.
Implicit Types (languages keys : list string) (d : LanguageDialog).
Implicit Types (m : gmap string Checkbox) (lang : string) (i : nat).

Lemma add_checkboxes_lookup i languages m lang :
  add_checkboxes (S i) languages m !! lang
  = if decide (lang ∈ languages) then Some {| enabled := true; value := true |}
    else m !! lang.
Proof.
revert i m. induction languages as [|l rest IH]; intros i m; simpl.
- done.
- rewrite IH.
  destruct (decide (lang ∈ rest)) as [Hin|Hnot].
  + by rewrite decide_True by (by right).
  + destruct (decide (lang = l)) as [->|Hne].
    * rewrite lookup_insert_eq. by rewrite decide_True by (by left).
    * rewrite lookup_insert_ne by done.
      rewrite decide_False; [done |]. by intros [?|?]%elem_of_cons.
Qed.

Lemma initial_dialog_lookup first rest lang :
  targetLangCheckboxes (initial_dialog (first :: rest)) !! lang
  = if decide (lang ∈ rest) then Some {| enabled := true; value := true |}
    else if decide (lang = first) then Some {| enabled := false; value := false |}
    else None.
Proof.
simpl. rewrite add_checkboxes_lookup.
destruct (decide (lang ∈ rest)); [done |].
destruct (decide (lang = first)) as [->|Hne].
- by rewrite lookup_insert_eq.
- by rewrite lookup_insert_ne.
Qed.

Lemma initial_dialog_invariant languages :
  languages ≠ [] → NoDup languages → dialog_invariant languages (initial_dialog languages).
Proof.
destruct languages as [|first rest]; [done |]. intros _ [Hfresh _]%NoDup_cons.
exists first. split_and!; [done | done | |].
- rewrite initial_dialog_lookup. rewrite decide_False by done. by rewrite decide_True.
- intros lang Hin. rewrite initial_dialog_lookup.
  destruct (decide (lang ∈ rest)); [by eexists |].
  apply elem_of_cons in Hin as [->|Hin]; [|done]. rewrite decide_True by done. by eexists.
Qed.

Lemma user_action_invariant languages action d :
  dialog_invariant languages d →
  ∃ d', user_action languages action d = Normal d' ∧ dialog_invariant languages d'.
Proof.
intros (cur & Hcur & Hsel & Hbox & Hkeys).
destruct action as [item|lang]; simpl.
- destruct (decide (item < length languages)%nat) as [Hitem|]; [|by exists d; split; [|exists cur]].
  destruct (lookup_lt_is_Some_2 languages item Hitem) as [text Htext].
  unfold onChange, selection_text. simpl. rewrite Htext, Hcur. simpl.
  destruct (decide (Some text ≠ Some cur)) as [Hne|Heq].
  + assert (text ≠ cur) as Hne' by congruence.
    unfold set_checkbox. simpl. rewrite Hbox. simpl.
    destruct (Hkeys text) as [box Htextbox]; [by eapply list_elem_of_lookup_2 |].
    rewrite lookup_insert_ne by done. rewrite Htextbox. simpl.
    rewrite lookup_insert_eq. simpl.
    eexists. split; [done |]. exists text. simpl. split_and!; [done | done | |].
    * by rewrite lookup_insert_eq.
    * intros lang' Hin. rewrite !lookup_insert_is_Some'. right. right. right. by apply Hkeys.
  + apply dec_stable in Heq as [= ->].
    eexists. split; [done |]. by exists cur.
- destruct (targetLangCheckboxes d !! lang) as [box|] eqn:Hlang;
    [|by exists d; split; [|exists cur]].
  destruct (enabled box) eqn:Henabled; [|by exists d; split; [|exists cur]].
  assert (lang ≠ cur) as Hne.
  { intros ->. rewrite Hbox in Hlang. injection Hlang as <-. done. }
  eexists. split; [done |]. exists cur. simpl. split_and!; [done | done | |].
  + by rewrite lookup_insert_ne.
  + intros lang' Hin. rewrite lookup_insert_is_Some'. right. by apply Hkeys.
Qed.

Lemma user_actions_invariant languages actions d :
  dialog_invariant languages d →
  ∃ d', user_actions languages actions d = Normal d' ∧ dialog_invariant languages d'.
Proof.
revert d. induction actions as [|action rest IH]; intros d Hd; simpl.
- by exists d.
- destruct (user_action_invariant languages action d Hd) as (d1 & -> & Hd1). simpl.
  by apply IH.
Qed.

Lemma selected_targets_filter m languages selectedTargetLangs :
  (∀ lang, lang ∈ languages → is_Some (m !! lang)) →
  selected_targets m languages selectedTargetLangs
  = Normal (selectedTargetLangs ++ filter (λ lang, is_checked m lang) languages).
Proof.
revert selectedTargetLangs.
induction languages as [|lang rest IH]; intros selectedTargetLangs Hkeys; simpl.
- by rewrite app_nil_r.
- destruct (Hkeys lang) as [box Hbox]; [by left |]. rewrite Hbox. simpl.
  rewrite IH by (intros lang' Hin; apply Hkeys; by right).
  rewrite filter_cons.
  assert (is_checked m lang = value box) as Hchecked by (unfold is_checked; by rewrite Hbox).
  destruct (decide (is_checked m lang)) as [Hyes|Hno]; rewrite Hchecked in *;
    destruct (value box); try done.
  by rewrite <-app_assoc.
Qed.

(** The run of the dialog that the user accepts. *)
Lemma userSelectLanguages_run languages actions :
  languages ≠ [] → NoDup languages →
  ∃ d lang,
    user_actions languages actions (initial_dialog languages) = Normal d ∧
    dialog_invariant languages d ∧
    currentLang d = Some lang ∧
    userSelectLanguages languages actions true = Normal None ∧
    userSelectLanguages languages actions false
    = Normal (Some {| source := lang;
                      target := filter (λ lang, is_checked (targetLangCheckboxes d) lang)
                                       languages |}).
Proof.
intros Hne Hnodup.
destruct (user_actions_invariant languages actions _
            (initial_dialog_invariant languages Hne Hnodup)) as (d & Hrun & Hd).
pose proof Hd as (cur & Hcur & Hsel & Hbox & Hkeys).
exists d, cur. split_and!; [done | done | done | |].
- unfold userSelectLanguages. by rewrite Hrun.
- unfold userSelectLanguages. rewrite Hrun. simpl.
  rewrite selected_targets_filter by done. simpl.
  unfold selection_text. by rewrite Hsel.
Qed.

Lemma indexOf_spec (x : string) keys i :
  (indexOf x keys i = -1 ∧ x ∉ keys)
  ∨ ∃ n, indexOf x keys i = Z.of_nat (i + n) ∧ keys !! n = Some x ∧ x ∉ take n keys.
Proof.
revert i. induction keys as [|y rest IH]; intros i; simpl.
- left. split; [done | apply not_elem_of_nil].
- destruct (decide (y = x)) as [->|Hne].
  + right. exists 0%nat. rewrite Nat.add_0_r. split_and!; [done | done |].
    apply not_elem_of_nil.
  + destruct (IH (S i)) as [[-> Hnot]|(n & -> & Hn & Hnot)].
    * left. split; [done |]. by intros [?|?]%elem_of_cons.
    * right. exists (S n). split_and!; [f_equal; lia | done |].
      simpl. by intros [?|?]%elem_of_cons.
Qed.

Lemma delete_first_filter (x : string) keys n :
  NoDup keys → keys !! n = Some x → delete n keys = filter (λ k, k ≠ x) keys.
Proof.
revert n. induction keys as [|y rest IH]; intros n Hnodup Hn; [done |].
apply NoDup_cons in Hnodup as [Hfresh Hnodup]. rewrite filter_cons.
destruct n as [|n]; simpl in *.
- injection Hn as ->. rewrite decide_False by (by intros ?).
  clear IH Hnodup. induction rest as [|z rest IH]; [done |].
  apply not_elem_of_cons in Hfresh as [Hne Hfresh].
  rewrite filter_cons, decide_True by done. by rewrite <-IH.
- rewrite decide_True.
  + by rewrite (IH n).
  + intros ->. apply Hfresh. by eapply list_elem_of_lookup_2.
Qed.
End language_dialog.

Section language_choice.
Implicit Types (languages keys : list string) (actions : list UserAction).

Lemma filter_ext_elem (P Q : string → Prop) `{!∀ x, Decision (P x), !∀ x, Decision (Q x)}
    (l : list string) :
  (∀ x, x ∈ l → P x ↔ Q x) → filter P l = filter Q l.
Proof.
induction l as [|x l IH]; intros Hiff; [done |]. rewrite !filter_cons.
rewrite IH by (intros y Hy; apply Hiff; by right).
destruct (decide (P x)) as [HP|HP], (decide (Q x)) as [HQ|HQ]; try done;
  exfalso; apply (Hiff x) in HP || apply (Hiff x) in HQ; try done; by left.
Qed.

Lemma languages_of_keys_eq keys :
  NoDup keys → languages_of_keys keys = filter (λ k, k ≠ "__rowNum__") keys.
Proof.
intros Hnodup. unfold languages_of_keys.
destruct (indexOf_spec "__rowNum__" keys 0) as [[-> Hnot]|(n & -> & Hn & _)].
- rewrite decide_False by (by intros ?).
  clear Hnodup. induction keys as [|k keys IH]; [done |].
  apply not_elem_of_cons in Hnot as [Hne Hnot].
  rewrite filter_cons, decide_True by done. by rewrite <-IH.
- rewrite decide_True by lia. simpl. rewrite Nat2Z.id. by apply delete_first_filter.
Qed.

Lemma userSelectLanguages_accepted languages actions :
  languages ≠ [] → NoDup languages →
  ∃ selectedLanguages,
    userSelectLanguages languages actions false = Normal (Some selectedLanguages) ∧
    source selectedLanguages ∈ languages ∧
    (source selectedLanguages ∉ target selectedLanguages) ∧
    target selectedLanguages `sublist_of` languages ∧
    NoDup (target selectedLanguages).
Proof.
intros Hne Hnodup.
destruct (userSelectLanguages_run languages actions Hne Hnodup)
  as (d & lang & _ & (cur & Hcur & Hsel & Hbox & _) & Hlang & _ & ->).
rewrite Hlang in Hcur. injection Hcur as <-.
eexists. split; [done |]. simpl. split_and!.
- by eapply list_elem_of_lookup_2.
- intros [Hchecked _]%list_elem_of_filter. unfold is_checked in Hchecked.
  by rewrite Hbox in Hchecked.
- apply sublist_filter.
- by apply NoDup_filter.
Qed.
End language_choice.

(** The list of the languages offered in the dialog is the list of the
    keys of the first row, in their order, without [__rowNum__]; only the
    first [__rowNum__] is removed, which is every one when the keys are
    distinct. *)
Theorem languages_of_keys_removes_row_number (keys : list string) :
  NoDup keys →
  languages_of_keys keys = filter (λ k, k ≠ "__rowNum__") keys
  ∧ ("__rowNum__" ∉ languages_of_keys keys)
  ∧ NoDup (languages_of_keys keys)
  ∧ ∀ k, k ∈ languages_of_keys keys ↔ k ∈ keys ∧ k ≠ "__rowNum__".
Proof.
intros Hnodup. rewrite languages_of_keys_eq by done. split_and!.
- done.
- by intros [? _]%list_elem_of_filter.
- by apply NoDup_filter.
- intros k. rewrite list_elem_of_filter. naive_solver.
Qed.

Lemma languages_of_keys_removes_row_number_witness :
  languages_of_keys ["en"; "__rowNum__"; "fr"] = ["en"; "fr"].
Proof.
refine (proj1 (languages_of_keys_removes_row_number ["en"; "__rowNum__"; "fr"] _)).
apply (bool_decide_unpack _). vm_compute. exact I.
Defined.

(** Whatever the user does in the dialog, it ends without a throw; when it
    is accepted, the source language is one of the languages and is never
    among the target languages, and the target languages are distinct and
    in the order of the columns. *)
Theorem userSelectLanguages_source_not_target (languages : list string)
    (actions : list UserAction) :
  languages ≠ [] → NoDup languages →
  userSelectLanguages languages actions true = Normal None
  ∧ ∃ selectedLanguages,
      userSelectLanguages languages actions false = Normal (Some selectedLanguages) ∧
      source selectedLanguages ∈ languages ∧
      (source selectedLanguages ∉ target selectedLanguages) ∧
      target selectedLanguages `sublist_of` languages ∧
      NoDup (target selectedLanguages).
Proof.
intros Hne Hnodup. split.
- by destruct (userSelectLanguages_run languages actions Hne Hnodup)
    as (d & lang & _ & _ & _ & -> & _).
- by apply userSelectLanguages_accepted.
Qed.

Lemma userSelectLanguages_source_not_target_witness :
  userSelectLanguages ["en"; "fr"; "de"]
    [ChooseSource 1; ClickTarget "fr"; ClickTarget "en"; ClickTarget "de"] true
  = Normal None
  ∧ ∃ selectedLanguages,
      userSelectLanguages ["en"; "fr"; "de"]
        [ChooseSource 1; ClickTarget "fr"; ClickTarget "en"; ClickTarget "de"] false
      = Normal (Some selectedLanguages) ∧
      source selectedLanguages ∈ ["en"; "fr"; "de"] ∧
      (source selectedLanguages ∉ target selectedLanguages) ∧
      target selectedLanguages `sublist_of` ["en"; "fr"; "de"] ∧
      NoDup (target selectedLanguages).
Proof.
apply userSelectLanguages_source_not_target.
- discriminate.
- apply (bool_decide_unpack _). vm_compute. exact I.
Defined.

(** A dialog that is accepted as it is shown selects the first language as
    the source and every other language as a target. *)
Theorem userSelectLanguages_default (first : string) (rest : list string) :
  NoDup (first :: rest) →
  userSelectLanguages (first :: rest) [] false
  = Normal (Some {| source := first; target := rest |}).
Proof.
intros Hnodup. pose proof Hnodup as [Hfresh _]%NoDup_cons.
destruct (userSelectLanguages_run (first :: rest) [] ltac:(done) Hnodup)
  as (d & lang & Hrun & _ & Hlang & _ & ->).
injection Hrun as <-. injection Hlang as <-. do 3 f_equal.
assert (is_checked (targetLangCheckboxes (initial_dialog (first :: rest))) first = false)
  as Hfirst.
{ unfold is_checked. rewrite initial_dialog_lookup.
  rewrite decide_False by done. by rewrite decide_True. }
assert (∀ lang, lang ∈ rest →
          is_checked (targetLangCheckboxes (initial_dialog (first :: rest))) lang)
  as Hrest.
{ intros lang Hin. unfold is_checked. rewrite initial_dialog_lookup.
  by rewrite decide_True. }
revert Hfirst Hrest.
generalize (targetLangCheckboxes (initial_dialog (first :: rest))).
intros m Hfirst Hrest. rewrite filter_cons.
destruct (decide _) as [Hyes|_]; [by rewrite Hfirst in Hyes |].
clear -Hrest. induction rest as [|lang rest IH]; [done |].
rewrite filter_cons, decide_True by (apply Hrest; by left).
rewrite IH; [done |]. intros lang' Hin. apply Hrest. by right.
Qed.

Lemma userSelectLanguages_default_witness :
  userSelectLanguages ["en"; "fr"; "de"] [] false
  = Normal (Some {| source := "en"; target := ["fr"; "de"] |}).
Proof.
apply userSelectLanguages_default.
apply (bool_decide_unpack _). vm_compute. exact I.
Defined.

(** Choosing another source language unchecks that language and enables
    the check box of the previous source without checking it: unless the
    user checks it by hand, the previous source language is not a target. *)
Theorem userSelectLanguages_change_source (first : string) (rest : list string)
    (item : nat) (lang : string) :
  NoDup (first :: rest) →
  rest !! item = Some lang →
  userSelectLanguages (first :: rest) [ChooseSource (S item)] false
  = Normal (Some {| source := lang; target := filter (λ l, l ≠ lang) rest |}).
Proof.
intros Hnodup Hitem. pose proof Hnodup as [Hfresh _]%NoDup_cons.
assert (lang ≠ first) as Hne.
{ intros ->. apply Hfresh. by eapply list_elem_of_lookup_2. }
pose (m0 := targetLangCheckboxes (initial_dialog (first :: rest))).
pose (m3 := <[lang := {| enabled := false; value := false |}]>
              (<[lang := {| enabled := false; value := true |}]>
                 (<[first := {| enabled := true; value := false |}]> m0))).
assert (user_actions (first :: rest) [ChooseSource (S item)] (initial_dialog (first :: rest))
        = Normal {| selection := S item; currentLang := Some lang;
                    targetLangCheckboxes := m3 |}) as Hrun.
{ unfold user_actions, user_action.
  rewrite decide_True by (apply lookup_lt_Some in Hitem; simpl; lia).
  unfold onChange, selection_text, set_checkbox.
  cbn [selection currentLang targetLangCheckboxes].
  change ((first :: rest) !! S item) with (rest !! item). rewrite Hitem.
  change (currentLang (initial_dialog (first :: rest))) with (Some first).
  fold m0.
  cbn [defined mbind Completion_bind mret Completion_ret default].
  rewrite decide_True by congruence. unfold id.
  assert (m0 !! first = Some {| enabled := false; value := false |}) as ->.
  { unfold m0. rewrite initial_dialog_lookup.
    rewrite decide_False by done. by rewrite decide_True. }
  cbn [defined mbind Completion_bind mret Completion_ret value enabled].
  rewrite lookup_insert_ne by done.
  assert (m0 !! lang = Some {| enabled := true; value := true |}) as ->.
  { unfold m0. rewrite initial_dialog_lookup.
    by rewrite decide_True by (by eapply list_elem_of_lookup_2). }
  cbn [defined mbind Completion_bind mret Completion_ret value enabled].
  rewrite lookup_insert_eq.
  cbn [defined mbind Completion_bind mret Completion_ret value enabled].
  done. }
destruct (userSelectLanguages_run (first :: rest) [ChooseSource (S item)]
            ltac:(done) Hnodup) as (d & cur & Hrun' & _ & Hcur & _ & ->).
rewrite Hrun in Hrun'. injection Hrun' as <-. injection Hcur as <-.
cbn [targetLangCheckboxes]. do 3 f_equal.
rewrite filter_cons.
assert (is_checked m3 first = false) as Hfirst.
{ unfold is_checked, m3. rewrite !lookup_insert_ne by done. by rewrite lookup_insert_eq. }
destruct (decide (is_checked m3 first)) as [Hyes|_]; [by rewrite Hfirst in Hyes |].
apply filter_ext_elem. intros l Hin. unfold is_checked, m3.
destruct (decide (l = lang)) as [->|Hl].
- rewrite lookup_insert_eq. simpl. naive_solver.
- rewrite !lookup_insert_ne by done.
  rewrite lookup_insert_ne by (intros ->; done).
  unfold m0. rewrite initial_dialog_lookup. rewrite decide_True by done. simpl. done.
Qed.

Lemma userSelectLanguages_change_source_witness :
  userSelectLanguages ["en"; "fr"; "de"] [ChooseSource 1] false
  = Normal (Some {| source := "fr"; target := filter (λ l, l ≠ "fr") ["fr"; "de"] |}).
Proof.
apply (userSelectLanguages_change_source "en" ["fr"; "de"] 0 "fr").
- apply (bool_decide_unpack _). vm_compute. exact I.
- reflexivity.
Defined.



(** ** The older copy, [part_000] *)

(** The search of [part_000] returns the index of the first element of the
    document it is given whose text has the key of the cell, and [-1] when
    there is none; it removes nothing, so the same element is found again
    by the next search.  For a row without a source cell it throws a
    [TypeError] as soon as the document has a text element, and returns
    [-1] otherwise. *)
Theorem Part000_findMatchingTextLayer_first_match appName (document : Document)
    (searchText : option string) :
  let texts := element_texts appName document in
  let found := Part000.findMatchingTextLayer appName document
                 (getDocumentTextLayers appName document) searchText in
  match searchText with
  | Some cell =>
      ∃ e, found = Normal e ∧
           ((e = -1 ∧ ∀ n, ¬ has_key texts cell n)
            ∨ (∃ n, e = Z.of_nat n ∧ has_key texts cell n ∧
                    ∀ n', (n' < n)%nat → ¬ has_key texts cell n'))
  | None => found = if decide (texts = []) then Normal (-1) else Throw TypeError
  end.
Proof.
intros texts found. destruct searchText as [cell|].
- apply Part000_findMatchingTextLayer_spec.
- unfold found, texts, Part000.findMatchingTextLayer.
  pose proof (getLayerText_elements appName document) as Htexts.
  destruct Htexts as [|layer text layers texts' Hlayer _]; [done |].
  simpl. by rewrite Hlayer.
Qed.

Lemma Part000_findMatchingTextLayer_first_match_witness :
  Part000.findMatchingTextLayer ADOBE_PHOTOSHOP hello_psd
    (getDocumentTextLayers ADOBE_PHOTOSHOP hello_psd) None
  = if decide (element_texts ADOBE_PHOTOSHOP hello_psd = []) then Normal (-1)
    else Throw TypeError.
Proof. exact (Part000_findMatchingTextLayer_first_match ADOBE_PHOTOSHOP hello_psd None). Defined.

Section part000_index.
Variables (appName sourceLang currentLang : string) (textLayers : list nat).

(** The first variant pushes one entry on the index for every row. *)
Lemma Part000_first_variant_length k (rest : list Row) (dataLayerIndices index : list Z)
    (targetDoc targetDoc' : Document) :
  length dataLayerIndices = k →
  for_each (Part000.localize_row appName textLayers sourceLang currentLang)
           k rest (dataLayerIndices, targetDoc) = Normal (index, targetDoc') →
  length index = (k + length rest)%nat.
Proof.
revert k dataLayerIndices targetDoc.
induction rest as [|row rest IH]; intros k dataLayerIndices targetDoc Hlen Hrun.
- injection Hrun as <- _. simpl. lia.
- rewrite for_each_cons, Part000_localize_row_guard in Hrun.
  rewrite decide_True in Hrun by lia.
  destruct (Part000.findMatchingTextLayer _ _ _ _) as [e|]; [|done]. simpl in Hrun.
  destruct (write_row _ _ _ _ _ _ _) as [targetDoc1|]; [|done]. simpl in Hrun.
  apply IH in Hrun; [simpl; lia |]. rewrite length_app. simpl. lia.
Qed.
End part000_index.

(** [part_000] searches the document only while it writes the first
    variant: when that variant is saved the index has one entry for every
    row, and every later variant is written from the index exactly as
    [generateLocalizedFiles] of [PictureList_Import.jsx] writes it from a
    layer map with these entries, without a search. *)
Theorem Part000_index_built_once (h h1 : Host) ccFile (template : Document)
    sourceLang (rows : list Row) firstLang (langs : list string)
    (dataLayerIndices : list Z) :
  files h !! fullName ccFile = Some template →
  Part000.generate_variant ccFile sourceLang rows 0 firstLang [] h
  = (h1, Normal dataLayerIndices) →
  length dataLayerIndices = length rows
  ∧ for_each (Part000.generate_variant ccFile sourceLang rows) 1 langs dataLayerIndices h1
    = let '(h', outcome) :=
        for_each (generate_variant ccFile rows dataLayerIndices) 1 langs () h1 in
      (h', (λ _, dataLayerIndices) <$> outcome).
Proof.
intros Htemplate Hfirst.
unfold Part000.generate_variant, File_copy, app_open, get_app_name, Document_save,
  Document_close, lift, mbind, Script_bind in Hfirst.
rewrite Htemplate in Hfirst. simpl in Hfirst. rewrite lookup_insert_eq in Hfirst.
simpl in Hfirst.
destruct (for_each _ _ _ _) as [[index targetDoc']|exn] eqn:Hrows; simpl in Hfirst;
  [|done].
injection Hfirst as <- <-.
apply Part000_first_variant_length in Hrows; [|done]. simpl in Hrows.
split; [done |].
apply (Part000_later_variants _ _ template); [|done].
simpl. rewrite !lookup_insert_ne; [done |..]; apply not_eq_sym, target_path_fresh.
Qed.

Lemma Part000_index_built_once_witness :
  length [0; 1] = length greeting_rows_fr_de
  ∧ for_each (Part000.generate_variant poster "en" greeting_rows_fr_de) 1 ["de"] [0; 1]
      (Part000.generate_variant poster "en" greeting_rows_fr_de 0 "fr" []
         (host_with ADOBE_PHOTOSHOP poster greeting_psd)).1
    = let '(h', outcome) :=
        for_each (generate_variant poster greeting_rows_fr_de [0; 1]) 1 ["de"] ()
          (Part000.generate_variant poster "en" greeting_rows_fr_de 0 "fr" []
             (host_with ADOBE_PHOTOSHOP poster greeting_psd)).1 in
      (h', (λ _, [0; 1]) <$> outcome).
Proof.
apply (Part000_index_built_once (host_with ADOBE_PHOTOSHOP poster greeting_psd) _
         poster greeting_psd "en" greeting_rows_fr_de "fr" ["de"] [0; 1]).
- reflexivity.
- vm_compute. reflexivity.
Defined.

(** ** The search in the pool *)

Lemma findMatchingTextLayer_loop_first (layerTextStrings : list string)
    (layerIndices : list Z) (searchText : string) (i : nat) (rest : list Z) :
  length layerTextStrings = length layerIndices →
  drop i layerIndices = rest →
  searchText ∉ take i layerTextStrings →
  ((searchText ∉ layerTextStrings)
   ∧ findMatchingTextLayer_loop layerTextStrings layerIndices searchText i rest
     = (-1, (layerTextStrings, layerIndices)))
  ∨ ∃ j matchIndex,
      layerTextStrings !! j = Some searchText ∧
      (searchText ∉ take j layerTextStrings) ∧
      layerIndices !! j = Some matchIndex ∧
      findMatchingTextLayer_loop layerTextStrings layerIndices searchText i rest
      = (matchIndex, (delete j layerTextStrings, delete j layerIndices)).
Proof.
intros Hlen. revert i. induction rest as [|matchIndex rest IH]; intros i Hdrop Hbefore.
- left. split; [|done].
  assert (length layerIndices ≤ i)%nat as Hi.
  { apply (f_equal length) in Hdrop. rewrite length_drop in Hdrop. simpl in Hdrop. lia. }
  by rewrite take_ge in Hbefore by lia.
- assert (layerIndices !! i = Some matchIndex) as Hi.
  { rewrite <-(Nat.add_0_r i), <-lookup_drop, Hdrop. done. }
  simpl. destruct (decide (layerTextStrings !! i = Some searchText)) as [Hfound|Hother].
  + right. by exists i, matchIndex.
  + destruct (lookup_lt_is_Some_2 layerTextStrings i) as [text Htext].
    { rewrite Hlen. by eapply lookup_lt_Some. }
    apply IH.
    * rewrite (drop_S _ _ _ Hi) in Hdrop. by injection Hdrop.
    * rewrite (take_S_r _ _ _ Htext). apply not_elem_of_app. split; [done |].
      intros [->|[]%elem_of_nil]%elem_of_cons. congruence.
Qed.

(** [findMatchingTextLayer] on two arrays of one length: it returns [-1]
    and leaves both arrays as they are when no text is the text searched
    for; otherwise it returns the index stored at the first position whose
    text is the text searched for, and removes that position, and no
    other, from both arrays. *)
Theorem findMatchingTextLayer_first_free (layerTextStrings : list string)
    (layerIndices : list Z) (searchText : string) :
  length layerTextStrings = length layerIndices →
  ((searchText ∉ layerTextStrings)
   ∧ findMatchingTextLayer layerTextStrings layerIndices searchText
     = (-1, (layerTextStrings, layerIndices)))
  ∨ ∃ i matchIndex,
      layerTextStrings !! i = Some searchText ∧
      (searchText ∉ take i layerTextStrings) ∧
      layerIndices !! i = Some matchIndex ∧
      findMatchingTextLayer layerTextStrings layerIndices searchText
      = (matchIndex, (delete i layerTextStrings, delete i layerIndices)).
Proof.
intros Hlen. unfold findMatchingTextLayer.
destruct (decide (0 < length layerIndices)%nat) as [_|Hempty].
- apply findMatchingTextLayer_loop_first; [done | done | apply not_elem_of_nil].
- left. split; [|done].
  destruct layerTextStrings; [apply not_elem_of_nil | simpl in Hlen; lia].
Qed.

Lemma findMatchingTextLayer_first_free_witness :
  (("Bye" ∉ ["Hello"; "Bye"; "Bye"])
   ∧ findMatchingTextLayer ["Hello"; "Bye"; "Bye"] [0; 1; 2] "Bye"
     = (-1, (["Hello"; "Bye"; "Bye"], [0; 1; 2])))
  ∨ ∃ i matchIndex,
      ["Hello"; "Bye"; "Bye"] !! i = Some "Bye" ∧
      ("Bye" ∉ take i ["Hello"; "Bye"; "Bye"]) ∧
      [0; 1; 2] !! i = Some matchIndex ∧
      findMatchingTextLayer ["Hello"; "Bye"; "Bye"] [0; 1; 2] "Bye"
      = (matchIndex, (delete i ["Hello"; "Bye"; "Bye"], delete i [0; 1; 2])).
Proof.
apply (findMatchingTextLayer_first_free ["Hello"; "Bye"; "Bye"] [0; 1; 2] "Bye").
reflexivity.
Defined.

(** ** The throws that leave [main] *)

(** The [try] of [main] covers [generateLocalizedFiles] only: a throw of
    the variants is caught there, and the run from [mapTextLayers] on ends
    with a throw exactly when the matching part of [mapTextLayers] throws,
    with that exception. *)
Theorem localize_document_uncaught (h : Host) ccFile selectedLanguages
    (rows : list Row) (exn : Exn) :
  (localize_document ccFile selectedLanguages rows h).2 = Throw exn
  ↔ (mapTextLayers_match ccFile rows (source selectedLanguages) h).2 = Throw exn.
Proof.
unfold localize_document, mapTextLayers, mbind, Script_bind.
destruct (mapTextLayers_match ccFile rows (source selectedLanguages) h)
  as [h1 [[textLayerMap missingText]|exn']]; simpl; [|by split; intros [= ->]].
split; [|done].
assert (∀ h', (try_catch (generateLocalizedFiles ccFile selectedLanguages rows
                            textLayerMap) (λ _, mret ()) h').2 ≠ Throw exn) as Hcaught.
{ intros h'. unfold try_catch.
  by destruct (generateLocalizedFiles _ _ _ _ _) as [h2 [[]|exn2]]. }
destruct (decide (0 < length missingText)%nat); [|by intros ?%Hcaught].
destruct (confirm_answer h1 _); [by intros ?%Hcaught | done].
Qed.
